(** * particle-simulation: the quadtree, the motion model and the frame loop
      of [src/js/sketch.js]

    Numbers.  JavaScript numbers are modelled as mathematical reals: the
    sketch uses square roots ([dist], [mag], [limit]), sines and cosines
    ([random2D], the size pulse), so [R] with its [sqrt], [sin] and [cos] is
    the arithmetic the code is written against.  Comparisons are the boolean
    tests [Rltb], [Rleb] decided by [Rlt_dec] and [Rle_dec]; concrete inputs
    are evaluated by rewriting these tests with [lra].

    Objects.  A particle object is identified by its index in the global
    array [particles]; the quadtree stores these references, and every read
    of [point.pos] goes through the current array, so a particle moved by
    [update] after its insertion is seen at its new position by [query]. *)

From Stdlib Require Import Reals Lra Lia ZArith String Permutation.
From stdpp Require Import base list.

Local Open Scope R_scope.

(** ** Boolean comparisons on numbers *)

Definition Rltb (a b : R) : bool := if Rlt_dec a b then true else false.
Definition Rleb (a b : R) : bool := if Rle_dec a b then true else false.
Definition Rgtb (a b : R) : bool := Rltb b a.
Definition Rgeb (a b : R) : bool := Rleb b a.
Definition Reqb (a b : R) : bool := if Req_dec_T a b then true else false.

(** [Math.trunc] and the JavaScript remainder [a % b], whose result takes the
    sign of the dividend. *)
Definition Rtrunc (a : R) : Z :=
  if Rle_dec 0 a then Int_part a else (- Int_part (- a))%Z.

Definition js_rem (a b : R) : R := a - b * IZR (Rtrunc (a / b)).

(** ** p5.js library functions used by the sketch *)

(** Modelled from the spec: p5.js is not part of the sources.  [p5.Vector],
    restricted to the two components the sketch uses, with the operations of
    section 4.3 (difference, magnitude, normalisation, scaling, the clamp of
    the magnitude, the unit vector of a random direction) as the p5.js
    reference defines them. *)
Module Vec.
Record t : Type := mk { x : R; y : R }.

Definition add (a b : t) : t := mk (x a + x b) (y a + y b).
Definition sub (a b : t) : t := mk (x a - x b) (y a - y b).
Definition mult (a : t) (n : R) : t := mk (x a * n) (y a * n).
(** [div] leaves the vector unchanged when asked to divide by zero. *)
Definition div (a : t) (n : R) : t :=
  if Reqb n 0 then a else mk (x a / n) (y a / n).
Definition magSq (a : t) : R := x a * x a + y a * y a.
Definition mag (a : t) : R := sqrt (magSq a).
(** [normalize]: [len = mag(); if (len !== 0) mult(1 / len)]. *)
Definition normalize (a : t) : t :=
  let len := mag a in if Reqb len 0 then a else mult a (1 / len).
(** [limit(max)]: [if (magSq > max*max) div(sqrt(magSq)).mult(max)]. *)
Definition limit (a : t) (max : R) : t :=
  let mSq := magSq a in
  if Rgtb mSq (max * max) then mult (div a (sqrt mSq)) max else a.
(** [p5.Vector.random2D()] is [fromAngle(random(TWO_PI))]; the angle drawn
    by the generator is an input of the model. *)
Definition fromAngle (angle : R) : t := mk (cos angle) (sin angle).
Definition random2D (angle : R) : t := fromAngle angle.
End Vec.

(** Modelled from the spec: p5.js is not part of the sources.  Its scalar
    helpers: the Euclidean distance of section 4.2, the linear re-mapping
    behind the connection strength of section 4.4, the clamp of the pointer
    strength and the uniform draws of section 4.3, as the p5.js reference
    defines them. *)
Module P5.
(** [dist(x1, y1, x2, y2)] *)
Definition dist (x1 y1 x2 y2 : R) : R :=
  sqrt ((x2 - x1) * (x2 - x1) + (y2 - y1) * (y2 - y1)).

(** [map(n, start1, stop1, start2, stop2)] *)
Definition map (n start1 stop1 start2 stop2 : R) : R :=
  (n - start1) / (stop1 - start1) * (stop2 - start2) + start2.

(** [constrain(n, low, high)] is [max(min(n, high), low)]. *)
Definition constrain (n low high : R) : R := Rmax (Rmin n high) low.

(** [random(max)] and [random(min, max)], from a uniform draw [u] in
    [[0,1)]. *)
Definition random1 (u max : R) : R := u * max.
Definition random2 (u min max : R) : R := u * (max - min) + min.

Definition TWO_PI : R := 2 * PI.
End P5.

(** ** System configuration (lines 5-20) *)

Definition numParticles : nat := 150.
Definition maxSpeed : R := 2.
Definition particleSize : R := 5.
Definition connectionDistance : R := 120.

(** The p5 globals the sketch reads during one frame or one key event. *)
Record Env : Type := mkEnv {
  width : R;
  height : R;
  mouseIsPressed : bool;
  mouseX : R;
  mouseY : R;
  frameCount : R
}.

(** ** class Particle *)
Module Particle.
Record t : Type := mk {
  pos : Vec.t;
  vel : Vec.t;
  acc : Vec.t;
  hue : R;
  baseSize : R;
  size : R;
  pulseSpeed : R;
  pulseOffset : R
}.

(** [constructor()]: eight draws of the generator, in source order. *)
Definition new (env : Env) (u : nat -> R) : t :=
  let bs := P5.random2 (u 5%nat) (particleSize * 0.5) (particleSize * 1.5) in
  mk (Vec.mk (P5.random1 (u 0%nat) (width env)) (P5.random1 (u 1%nat) (height env)))
     (Vec.mk (P5.random2 (u 2%nat) (- maxSpeed) maxSpeed)
             (P5.random2 (u 3%nat) (- maxSpeed) maxSpeed))
     (Vec.mk 0 0)
     (P5.random1 (u 4%nat) 360)
     bs bs
     (P5.random2 (u 6%nat) 0.02 0.06)
     (P5.random1 (u 7%nat) P5.TWO_PI).

(** The acceleration with which [update] enters the line
    [this.acc.add(random2D().mult(0.01))]: the pointer force when the mouse
    is pressed and farther than 5, the old [this.acc] when it is pressed and
    not farther than 5 (no assignment happens on that path), the zero
    vector when it is not pressed. *)
Definition pointer_acc (env : Env) (repulsionMode : bool) (p : t) : Vec.t :=
  if mouseIsPressed env then
    let mouse := Vec.mk (mouseX env) (mouseY env) in
    let dir := Vec.sub mouse (pos p) in
    let distance := Vec.mag dir in
    if Rgtb distance 5 then
      let dir1 := Vec.normalize dir in
      let dir2 := if repulsionMode then Vec.mult dir1 (-1) else dir1 in
      let strength := P5.constrain (1 / (distance * 0.03)) 0 0.8 in
      Vec.mult dir2 strength
    else acc p
  else Vec.mk 0 0.

(** Wrap around edges, one axis: [if (c < 0) c = max; if (c > max) c = 0]. *)
Definition wrap (c max : R) : R :=
  let c1 := if Rltb c 0 then max else c in
  if Rgtb c1 max then 0 else c1.

(** [update()]; [angle] is the angle drawn by [random2D]. *)
Definition update (env : Env) (repulsionMode : bool) (angle : R) (p : t) : t :=
  let acc1 := pointer_acc env repulsionMode p in
  let acc2 := Vec.add acc1 (Vec.mult (Vec.random2D angle) 0.01) in
  let vel1 := Vec.add (vel p) acc2 in
  let vel2 := Vec.limit vel1 maxSpeed in
  let pos1 := Vec.add (pos p) vel2 in
  let vel3 := Vec.mult vel2 0.99 in
  let pos2 := Vec.mk (wrap (Vec.x pos1) (width env))
                     (wrap (Vec.y pos1) (height env)) in
  let size1 := baseSize p
               + sin (frameCount env * pulseSpeed p + pulseOffset p)
                 * (baseSize p * 0.3) in
  let hue1 := js_rem (hue p + 0.1) 360 in
  mk pos2 vel3 acc2 hue1 (baseSize p) size1 (pulseSpeed p) (pulseOffset p).

(** What reading a slot of the array that holds no particle yields in the
    model; the sketch never does so. *)
Definition origin : t :=
  mk (Vec.mk 0 0) (Vec.mk 0 0) (Vec.mk 0 0) 0 0 0 0 0.
End Particle.

(** ** class Boundary and class Circle *)
Module Circle.
Record t : Type := mk { x : R; y : R; r : R }.
End Circle.

Module Boundary.
Record t : Type := mk { x : R; y : R; w : R; h : R }.

Definition contains (b : t) (point : Particle.t) : bool :=
  Rgeb (Vec.x (Particle.pos point)) (x b - w b)
  && Rltb (Vec.x (Particle.pos point)) (x b + w b)
  && Rgeb (Vec.y (Particle.pos point)) (y b - h b)
  && Rltb (Vec.y (Particle.pos point)) (y b + h b).

Definition intersects (b : t) (range : Circle.t) : bool :=
  negb (Rgtb (Circle.x range - Circle.r range) (x b + w b)
        || Rltb (Circle.x range + Circle.r range) (x b - w b)
        || Rgtb (Circle.y range - Circle.r range) (y b + h b)
        || Rltb (Circle.y range + Circle.r range) (y b - h b)).
End Boundary.

(** ** class QuadTree

    A node with [divided = false] is a [Leaf], a node with [divided = true]
    is [Divided] and carries its four children.  Both keep the fields
    [boundary], [capacity] and [points]; the points are references into the
    array [particles]. *)
Module QuadTree.
Inductive t : Type :=
| Leaf (boundary : Boundary.t) (capacity : nat) (points : list nat)
| Divided (boundary : Boundary.t) (capacity : nat) (points : list nat)
          (northeast northwest southeast southwest : t).

Definition boundary (q : t) : Boundary.t :=
  match q with Leaf b _ _ | Divided b _ _ _ _ _ _ => b end.
Definition capacity (q : t) : nat :=
  match q with Leaf _ c _ | Divided _ c _ _ _ _ _ => c end.
Definition points (q : t) : list nat :=
  match q with Leaf _ _ ps | Divided _ _ ps _ _ _ _ => ps end.
Definition divided (q : t) : bool :=
  match q with Leaf _ _ _ => false | Divided _ _ _ _ _ _ _ => true end.

(** [constructor(boundary, capacity)] *)
Definition new (boundary : Boundary.t) (capacity : nat) : t :=
  Leaf boundary capacity [].

(** [subdivide()]: four fresh children, the node's own points stay. *)
Definition subdivide (q : t) : t :=
  let x := Boundary.x (boundary q) in
  let y := Boundary.y (boundary q) in
  let w := Boundary.w (boundary q) / 2 in
  let h := Boundary.h (boundary q) / 2 in
  let ne := Boundary.mk (x + w) (y - h) w h in
  let nw := Boundary.mk (x - w) (y - h) w h in
  let se := Boundary.mk (x + w) (y + h) w h in
  let sw := Boundary.mk (x - w) (y + h) w h in
  Divided (boundary q) (capacity q) (points q)
          (new ne (capacity q)) (new nw (capacity q))
          (new se (capacity q)) (new sw (capacity q)).

(** [this.points.push(point)] *)
Definition push (q : t) (point : nat) : t :=
  match q with
  | Leaf b c ps => Leaf b c (ps ++ [point])
  | Divided b c ps ne nw se sw => Divided b c (ps ++ [point]) ne nw se sw
  end.

(** [insert(point)].  The recursion descends into children that
    [subdivide] has just created, so it is driven by [fuel]; [None] means
    the fuel ran out.  The result is the node after the call and the
    returned boolean.  [deref] reads a particle object through its
    reference.  The children are read after [subdivide] has run on a leaf,
    so the [Leaf] case of the inner match, a node without children, is never
    reached. *)
Fixpoint insert (fuel : nat) (deref : nat -> Particle.t) (q : t) (point : nat)
  : option (t * bool) :=
  match fuel with
  | O => None
  | S fuel' =>
    if negb (Boundary.contains (boundary q) (deref point)) then
      Some (q, false)
    else if (length (points q) <? capacity q)%nat then
      Some (push q point, true)
    else
      let q1 := if negb (divided q) then subdivide q else q in
      match q1 with
      | Leaf _ _ _ => None
      | Divided b c ps ne nw se sw =>
        match insert fuel' deref ne point with
        | None => None
        | Some (ne', true) => Some (Divided b c ps ne' nw se sw, true)
        | Some (ne', false) =>
          match insert fuel' deref nw point with
          | None => None
          | Some (nw', true) => Some (Divided b c ps ne' nw' se sw, true)
          | Some (nw', false) =>
            match insert fuel' deref se point with
            | None => None
            | Some (se', true) => Some (Divided b c ps ne' nw' se' sw, true)
            | Some (se', false) =>
              match insert fuel' deref sw point with
              | None => None
              | Some (sw', r) => Some (Divided b c ps ne' nw' se' sw', r)
              end
            end
          end
        end
      end
  end.

(** The loop [for (let p of this.points)] of [query]. *)
Definition query_points (deref : nat -> Particle.t) (range : Circle.t)
    (ps : list nat) (found : list nat) : list nat :=
  fold_left
    (fun found p =>
       let d := P5.dist (Circle.x range) (Circle.y range)
                        (Vec.x (Particle.pos (deref p)))
                        (Vec.y (Particle.pos (deref p))) in
       if Rltb d (Circle.r range) then found ++ [p] else found)
    ps found.

(** [query(range, found)] *)
Fixpoint query (deref : nat -> Particle.t) (q : t) (range : Circle.t)
    (found : list nat) : list nat :=
  if negb (Boundary.intersects (boundary q) range) then found
  else
    let found1 := query_points deref range (points q) found in
    match q with
    | Leaf _ _ _ => found1
    | Divided _ _ _ ne nw se sw =>
      let found2 := query deref ne range found1 in
      let found3 := query deref nw range found2 in
      let found4 := query deref se range found3 in
      query deref sw range found4
    end.
End QuadTree.

(** ** The sketch: global state, [draw], [drawConnection], [keyPressed] *)

(** The globals of the sketch that the simulation reads and writes.  The
    frame-rate bookkeeping ([lastFrameTimes], [frameRateVal]) and the canvas
    are left to the renderer. *)
Record State : Type := mkState {
  particles : list Particle.t;
  colorShift : R;
  repulsionMode : bool;
  useQuadtree : bool;
  quadtree : QuadTree.t
}.

(** What one call of [drawConnection] hands to the canvas: the stroke weight,
    the stroke colour [(hue, 80, 100, alpha)] and the end points of the
    line. *)
Record Line : Type := mkLine {
  strokeWeight : R;
  strokeHue : R;
  strokeAlpha : R;
  lineFrom : Vec.t;
  lineTo : Vec.t
}.

Definition drawConnection (colorShift : R) (p1 p2 : Particle.t) (distance : R)
  : Line :=
  let alpha := P5.map distance 0 connectionDistance 1 0 in
  let sw := P5.map distance 0 connectionDistance 2 0.1 in
  let connectionHue := js_rem (Particle.hue p1 + colorShift) 360 in
  mkLine sw connectionHue alpha (Particle.pos p1) (Particle.pos p2).

(** A connection emitted during a frame: the call
    [drawConnection(particles[src], particles[dst], d)]. *)
Record Connection : Type := mkConnection {
  src : nat;
  dst : nat;
  line : Line
}.

(** [particles[i]] *)
Definition deref (ps : list Particle.t) (i : nat) : Particle.t :=
  nth i ps Particle.origin.

Definition particle_dist (p1 p2 : Particle.t) : R :=
  P5.dist (Vec.x (Particle.pos p1)) (Vec.y (Particle.pos p1))
          (Vec.x (Particle.pos p2)) (Vec.y (Particle.pos p2)).

(** Lines 67-74: a fresh quadtree over the canvas, every particle inserted in
    array order; the value returned by [insert] is dropped. *)
Fixpoint insert_all (fuel : nat) (deref : nat -> Particle.t) (q : QuadTree.t)
    (refs : list nat) : option QuadTree.t :=
  match refs with
  | [] => Some q
  | p :: rest =>
    match QuadTree.insert fuel deref q p with
    | None => None
    | Some (q', _) => insert_all fuel deref q' rest
    end
  end.

Definition root_boundary (env : Env) : Boundary.t :=
  Boundary.mk (width env / 2) (height env / 2) (width env / 2) (height env / 2).

Definition build (fuel : nat) (env : Env) (ps : list Particle.t)
  : option QuadTree.t :=
  insert_all fuel (deref ps) (QuadTree.new (root_boundary env) 4)
             (seq 0 (length ps)).

(** Lines 88-96: the loop over the neighbours returned by the query.
    [particles.indexOf(neighbor)] is the reference itself, the objects of the
    array being pairwise distinct. *)
Definition connect_neighbors (cs : R) (ps : list Particle.t) (i : nat)
    (neighbors : list nat) (out : list Connection) : list Connection :=
  fold_left
    (fun out neighbor =>
       if (neighbor =? i)%nat || (neighbor <=? i)%nat then out
       else
         let d := particle_dist (deref ps i) (deref ps neighbor) in
         if Rltb d connectionDistance then
           out ++ [mkConnection i neighbor
                     (drawConnection cs (deref ps i) (deref ps neighbor) d)]
         else out)
    neighbors out.

(** Lines 99-104: the brute-force loop [for (j = i + 1; j < length; j++)]. *)
Definition connect_brute (cs : R) (ps : list Particle.t) (i : nat)
    (out : list Connection) : list Connection :=
  fold_left
    (fun out j =>
       let d := particle_dist (deref ps i) (deref ps j) in
       if Rltb d connectionDistance then
         out ++ [mkConnection i j
                   (drawConnection cs (deref ps i) (deref ps j) d)]
       else out)
    (seq (i + 1) (length ps - (i + 1))) out.

(** Lines 77-106, one turn of the loop: [particles[i].update()], then the
    neighbour search around the new position of particle [i]. *)
Definition draw_step (env : Env) (rep : bool) (angles : nat -> R)
    (useQ : bool) (qt : QuadTree.t) (cs : R)
    (ps : list Particle.t) (out : list Connection) (i : nat)
  : list Particle.t * list Connection :=
  let ps1 := alter (Particle.update env rep (angles i)) i ps in
  if useQ then
    let range := Circle.mk (Vec.x (Particle.pos (deref ps1 i)))
                           (Vec.y (Particle.pos (deref ps1 i)))
                           connectionDistance in
    let neighbors := QuadTree.query (deref ps1) qt range [] in
    (ps1, connect_neighbors cs ps1 i neighbors out)
  else
    (ps1, connect_brute cs ps1 i out).

Fixpoint draw_loop (env : Env) (rep : bool) (angles : nat -> R)
    (useQ : bool) (qt : QuadTree.t) (cs : R)
    (todo : list nat) (ps : list Particle.t) (out : list Connection)
  : list Particle.t * list Connection :=
  match todo with
  | [] => (ps, out)
  | i :: rest =>
    let '(ps1, out1) := draw_step env rep angles useQ qt cs ps out i in
    draw_loop env rep angles useQ qt cs rest ps1 out1
  end.

(** [draw()]: the new globals and the connections drawn, in drawing order.
    [angles i] is the angle that [random2D] draws in the update of particle
    [i]. *)
Definition draw (fuel : nat) (env : Env) (angles : nat -> R) (st : State)
  : option (State * list Connection) :=
  let cs := js_rem (colorShift st + 0.2) 360 in
  let built :=
    if useQuadtree st then build fuel env (particles st)
    else Some (quadtree st) in
  match built with
  | None => None
  | Some qt =>
    let '(ps, out) :=
      draw_loop env (repulsionMode st) angles (useQuadtree st) qt cs
                (seq 0 (length (particles st))) (particles st) [] in
    Some (mkState ps cs (repulsionMode st) (useQuadtree st) qt, out)
  end.

(** The unordered pairs a frame connects, as the pairs of references of its
    connections. *)
Definition pairs (out : list Connection) : list (nat * nat) :=
  List.map (fun c => (src c, dst c)) out.

(** [for (let i = 0; i < n; i++) particles.push(new Particle())]; [rnd k] are
    the draws of the [k]-th particle constructed. *)
Definition push_new (env : Env) (rnd : nat -> nat -> R) (n : nat)
    (ps : list Particle.t) : list Particle.t :=
  ps ++ List.map (fun k => Particle.new env (rnd k)) (seq 0 n).

(** [particles.pop()] *)
Definition pop (ps : list Particle.t) : list Particle.t := removelast ps.

Definition key_is (key a b : string) : bool :=
  String.eqb key a || String.eqb key b.

(** [keyPressed()] *)
Definition keyPressed (env : Env) (rnd : nat -> nat -> R) (key : string)
    (st : State) : State :=
  let rep := if key_is key "r" "R" then negb (repulsionMode st)
             else repulsionMode st in
  let ps1 := if key_is key "a" "A" then push_new env rnd 10 (particles st)
             else particles st in
  let ps2 := if key_is key "d" "D" && (10 <? length ps1)%nat
             then Nat.iter 10 pop ps1 else ps1 in
  let useQ := if key_is key "q" "Q" then negb (useQuadtree st)
              else useQuadtree st in
  let ps3 := if String.eqb key " " && (0 <? length ps2)%nat
             then push_new env rnd numParticles [] else ps2 in
  mkState ps3 (colorShift st) rep useQ (quadtree st).

(** ** The frame order of the specification, for comparison with [draw] *)

(** Every particle advanced, particle [i] with the angle [angles i]. *)
Definition advance_all (env : Env) (rep : bool) (angles : nat -> R)
    (ps : list Particle.t) : list Particle.t :=
  imap (fun i p => Particle.update env rep (angles i) p) ps.

(** The stores the loop of [draw] goes through: when turn [i] begins, the
    particles below [i] are advanced and the others are not yet. *)
Definition advance_below (env : Env) (rep : bool) (angles : nat -> R)
    (i : nat) (ps : list Particle.t) : list Particle.t :=
  imap (fun j p => if (j <? i)%nat then Particle.update env rep (angles j) p
                   else p) ps.

(** The connections emitted by turn [i] of the loop when it is entered with
    the store [ps]. *)
Definition turn_connections (env : Env) (rep : bool) (angles : nat -> R)
    (useQ : bool) (qt : QuadTree.t) (cs : R) (ps : list Particle.t) (i : nat)
  : list Connection :=
  snd (draw_step env rep angles useQ qt cs ps [] i).

(** The connection drawn for the pair [(i, j)] in the store [ps], and the
    test that decides it. *)
Definition connection (cs : R) (ps : list Particle.t) (i j : nat) : Connection :=
  mkConnection i j
    (drawConnection cs (deref ps i) (deref ps j)
                    (particle_dist (deref ps i) (deref ps j))).

Definition close_enough (ps : list Particle.t) (i j : nat) : bool :=
  Rltb (particle_dist (deref ps i) (deref ps j)) connectionDistance.

(** The test of the loop in [query]. *)
Definition in_range (deref : nat -> Particle.t) (range : Circle.t) (p : nat)
  : bool :=
  Rltb (P5.dist (Circle.x range) (Circle.y range)
                (Vec.x (Particle.pos (deref p)))
                (Vec.y (Particle.pos (deref p))))
       (Circle.r range).

(** Every particle inside the closed canvas [[0, width] x [0, height]]. *)
Definition inside_closed (env : Env) (ps : list Particle.t) : Prop :=
  forall p, In p ps ->
    0 <= Vec.x (Particle.pos p) <= width env
    /\ 0 <= Vec.y (Particle.pos p) <= height env.

(** Every particle inside the half-open canvas [[0, width) x [0, height)]. *)
Definition inside_half_open (env : Env) (ps : list Particle.t) : Prop :=
  forall p, In p ps ->
    0 <= Vec.x (Particle.pos p) < width env
    /\ 0 <= Vec.y (Particle.pos p) < height env.

(** The index of a frame as the specification orders it (section 4.4): built
    from the positions the particles have after they were all advanced. *)
Definition spec_index (fuel : nat) (env : Env) (rep : bool)
    (angles : nat -> R) (ps : list Particle.t) : option QuadTree.t :=
  build fuel env (advance_all env rep angles ps).

(** ** Node invariants of the quadtree *)

(** All references held by the tree, in the order [query] visits them. *)
Fixpoint all_points (q : QuadTree.t) : list nat :=
  match q with
  | QuadTree.Leaf _ _ ps => ps
  | QuadTree.Divided _ _ ps ne nw se sw =>
    ps ++ all_points ne ++ all_points nw ++ all_points se ++ all_points sw
  end.

Fixpoint depth (q : QuadTree.t) : nat :=
  match q with
  | QuadTree.Leaf _ _ _ => 1
  | QuadTree.Divided _ _ _ ne nw se sw =>
    S (Nat.max (Nat.max (depth ne) (depth nw))
               (Nat.max (depth se) (depth sw)))
  end.

(** The node invariant the specification words (section 3): a leaf holds at
    most [capacity] particles, a subdivided node holds none. *)
Fixpoint emptied_when_divided (q : QuadTree.t) : Prop :=
  match q with
  | QuadTree.Leaf _ c ps => (length ps <= c)%nat
  | QuadTree.Divided _ _ ps ne nw se sw =>
    ps = [] /\ emptied_when_divided ne /\ emptied_when_divided nw
    /\ emptied_when_divided se /\ emptied_when_divided sw
  end.

(** The node invariant of the code: a leaf holds at most [capacity]
    particles, a subdivided node still holds exactly [capacity] of them. *)
Fixpoint full_when_divided (q : QuadTree.t) : Prop :=
  match q with
  | QuadTree.Leaf _ c ps => (length ps <= c)%nat
  | QuadTree.Divided _ c ps ne nw se sw =>
    length ps = c /\ full_when_divided ne /\ full_when_divided nw
    /\ full_when_divided se /\ full_when_divided sw
  end.

(** The four quadrants [subdivide] gives to the children. *)
Definition ne_of (b : Boundary.t) : Boundary.t :=
  Boundary.mk (Boundary.x b + Boundary.w b / 2) (Boundary.y b - Boundary.h b / 2)
              (Boundary.w b / 2) (Boundary.h b / 2).
Definition nw_of (b : Boundary.t) : Boundary.t :=
  Boundary.mk (Boundary.x b - Boundary.w b / 2) (Boundary.y b - Boundary.h b / 2)
              (Boundary.w b / 2) (Boundary.h b / 2).
Definition se_of (b : Boundary.t) : Boundary.t :=
  Boundary.mk (Boundary.x b + Boundary.w b / 2) (Boundary.y b + Boundary.h b / 2)
              (Boundary.w b / 2) (Boundary.h b / 2).
Definition sw_of (b : Boundary.t) : Boundary.t :=
  Boundary.mk (Boundary.x b - Boundary.w b / 2) (Boundary.y b + Boundary.h b / 2)
              (Boundary.w b / 2) (Boundary.h b / 2).

(** Shape of every tree the code builds: one capacity [c] throughout, the
    counts of [full_when_divided], children on the quadrants of their
    parent. *)
Fixpoint shaped (c : nat) (q : QuadTree.t) : Prop :=
  match q with
  | QuadTree.Leaf _ c' ps => c' = c /\ (length ps <= c)%nat
  | QuadTree.Divided b c' ps ne nw se sw =>
    c' = c /\ length ps = c
    /\ QuadTree.boundary ne = ne_of b
    /\ QuadTree.boundary nw = nw_of b
    /\ QuadTree.boundary se = se_of b
    /\ QuadTree.boundary sw = sw_of b
    /\ shaped c ne /\ shaped c nw /\ shaped c se /\ shaped c sw
  end.

(** Reference [p] sits in a node of [q] all of whose ancestors, and the node
    itself, contain the position [deref p]. *)
Fixpoint stored (deref : nat -> Particle.t) (q : QuadTree.t) (p : nat) : Prop :=
  Boundary.contains (QuadTree.boundary q) (deref p) = true
  /\ (In p (QuadTree.points q)
      \/ match q with
         | QuadTree.Leaf _ _ _ => False
         | QuadTree.Divided _ _ _ ne nw se sw =>
           stored deref ne p \/ stored deref nw p
           \/ stored deref se p \/ stored deref sw p
         end).

(** Trees reachable from a fresh node by calls of [insert]. *)
Inductive reachable (b : Boundary.t) (c : nat) : QuadTree.t -> Prop :=
| reachable_new : reachable b c (QuadTree.new b c)
| reachable_insert fuel deref q p q' r :
    reachable b c q ->
    QuadTree.insert fuel deref q p = Some (q', r) ->
    reachable b c q'.

(** Key commands that add or remove particles, and a run of them. *)
Definition add_or_remove (key : string) : Prop :=
  key = "a"%string \/ key = "A"%string \/ key = "d"%string \/ key = "D"%string.

Fixpoint run_keys (env : Env) (rnd : nat -> nat -> nat -> R)
    (keys : list string) (st : State) : State :=
  match keys with
  | [] => st
  | key :: rest =>
    run_keys env (fun n => rnd (S n)) rest (keyPressed env (rnd 0%nat) key st)
  end.

(** [setup()]: the canvas is the one of [env]; 150 particles are constructed,
    [rnd k] being the draws of the [k]-th; the other globals keep the values
    of their declarations (lines 11-17) and the quadtree is a fresh root. *)
Definition setup (env : Env) (rnd : nat -> nat -> R) : State :=
  mkState (push_new env rnd numParticles []) 0 false true
          (QuadTree.new (root_boundary env) 4).

(** The boundaries of the four children [subdivide] creates, in the order
    north-east, north-west, south-east, south-west. *)
Definition child_boundaries (q : QuadTree.t) : list Boundary.t :=
  match QuadTree.subdivide q with
  | QuadTree.Leaf _ _ _ => []
  | QuadTree.Divided _ _ _ ne nw se sw =>
    [QuadTree.boundary ne; QuadTree.boundary nw;
     QuadTree.boundary se; QuadTree.boundary sw]
  end.

(** The keys [keyPressed] reacts to. *)
Definition bound_keys : list string :=
  ["r"; "R"; "a"; "A"; "d"; "D"; "q"; "Q"; " "]%string.

(** The dot product of two vectors. *)
Definition dot (a b : Vec.t) : R := Vec.x a * Vec.x b + Vec.y a * Vec.y b.

(** ** Concrete inputs *)

(** An 800 by 600 canvas with the mouse released, frame 1. *)
Definition env_idle : Env := mkEnv 800 600 false 0 0 1.

(** The mouse pressed at [(100, 100)], and a particle at that very place
    which carries the acceleration [(ax, 0)] of an earlier call. *)
Definition env_pressed_on_particle : Env := mkEnv 800 600 true 100 100 1.

Definition particle_with_old_acc (ax : R) : Particle.t :=
  Particle.mk (Vec.mk 100 100) (Vec.mk 0 0) (Vec.mk ax 0) 0 5 5 0.03 0.

(** A particle at rest at [(px, py)]. *)
Definition particle_at (px py : R) : Particle.t :=
  Particle.mk (Vec.mk px py) (Vec.mk 0 0) (Vec.mk 0 0) 0 5 5 0.03 0.

Definition state_of (ps : list Particle.t) (useQ : bool) : State :=
  mkState ps 0 false useQ (QuadTree.new (root_boundary env_idle) 4).

(** The same globals with the index switched on or off (key [q]). *)
Definition with_index (useQ : bool) (st : State) : State :=
  mkState (particles st) (colorShift st) (repulsionMode st) useQ (quadtree st).

(** The particle that [update] makes of a particle at rest at [(0, 300)]
    which draws the angle [PI]: pushed to [x = -0.01] and reset to the right
    edge of the canvas. *)
Definition reset_to_right_edge : Particle.t :=
  Particle.mk (Vec.mk 800 300) (Vec.mk (-0.0099) 0) (Vec.mk (-0.01) 0)
              (js_rem 0.1 360) 5 (5 + sin (1 * 0.03 + 0) * (5 * 0.3)) 0.03 0.

(** Two particles 100 apart, the second one on the right edge. *)
Definition edge_pair : list Particle.t :=
  [particle_at 700 300; reset_to_right_edge].

(** Four particles at one place and a fifth just left of the vertical
    centre line, which one update with the angle 0 carries across it. *)
Definition crossing_five : list Particle.t :=
  replicate 4 (particle_at 10 10) ++ [particle_at 399.995 100].

(** A generator whose every draw is 0. *)
Definition zero_draws : nat -> nat -> nat -> R := fun _ _ _ => 0.

(** Every [random2D] draws the angle 0, the unit vector [(1, 0)]. *)
Definition zero_angles : nat -> R := fun _ => 0.

(** * Properties *)

(** ** Comparisons and arithmetic *)

Lemma Rltb_true a b : a < b -> Rltb a b = true.
Proof. intros H. unfold Rltb. destruct (Rlt_dec a b); [reflexivity | lra]. Qed.

Lemma Rltb_false a b : b <= a -> Rltb a b = false.
Proof. intros H. unfold Rltb. destruct (Rlt_dec a b); [lra | reflexivity]. Qed.

Lemma Rleb_true a b : a <= b -> Rleb a b = true.
Proof. intros H. unfold Rleb. destruct (Rle_dec a b); [reflexivity | lra]. Qed.

Lemma Rleb_false a b : b < a -> Rleb a b = false.
Proof. intros H. unfold Rleb. destruct (Rle_dec a b); [lra | reflexivity]. Qed.

Lemma Reqb_true a b : a = b -> Reqb a b = true.
Proof.
  intros H. unfold Reqb. destruct (Req_dec_T a b); [reflexivity | contradiction].
Qed.

Lemma Reqb_false a b : a <> b -> Reqb a b = false.
Proof.
  intros H. unfold Reqb. destruct (Req_dec_T a b); [contradiction | reflexivity].
Qed.

Lemma Rltb_lt a b : Rltb a b = true <-> a < b.
Proof.
  unfold Rltb. destruct (Rlt_dec a b); split; intros; try lra; congruence.
Qed.

Lemma Rleb_le a b : Rleb a b = true <-> a <= b.
Proof.
  unfold Rleb. destruct (Rle_dec a b); split; intros; try lra; congruence.
Qed.

Lemma Rltb_ge a b : Rltb a b = false <-> b <= a.
Proof.
  unfold Rltb. destruct (Rlt_dec a b); split; intros; try lra; congruence.
Qed.

Lemma Rleb_gt a b : Rleb a b = false <-> b < a.
Proof.
  unfold Rleb. destruct (Rle_dec a b); split; intros; try lra; congruence.
Qed.

(** Decide the closed comparisons of a goal, leftmost first. *)
Ltac rdecide :=
  unfold Rgtb, Rgeb;
  repeat first
    [ rewrite Rltb_true by lra | rewrite Rltb_false by lra
    | rewrite Rleb_true by lra | rewrite Rleb_false by lra
    | rewrite Reqb_true by lra | rewrite Reqb_false by lra ].

Lemma Rtrunc_nonneg a : 0 <= a -> IZR (Rtrunc a) <= a < IZR (Rtrunc a) + 1.
Proof.
  intros Ha. unfold Rtrunc. destruct (Rle_dec 0 a); [ | contradiction ].
  destruct (base_Int_part a). lra.
Qed.

(** [a % b] of a non-negative [a] by a positive [b] lies in [[0, b)]. *)
Lemma js_rem_range a b : 0 <= a -> 0 < b -> 0 <= js_rem a b < b.
Proof.
  intros Ha Hb. unfold js_rem.
  assert (Hq : 0 <= a / b).
  { unfold Rdiv. apply Rmult_le_pos; [ lra | ].
    left. apply Rinv_0_lt_compat. lra. }
  destruct (Rtrunc_nonneg _ Hq) as [H1 H2].
  assert (Hab : a = b * (a / b)) by (field; lra).
  set (k := IZR (Rtrunc (a / b))) in *. set (q := a / b) in *.
  split; nra.
Qed.

Lemma Rabs_le_bounds a b : Rabs a <= b -> - b <= a <= b.
Proof. unfold Rabs. destruct (Rcase_abs a); lra. Qed.

Lemma sqrt_sq_nonneg a : 0 <= a -> sqrt (a * a) = a.
Proof. intros. apply sqrt_square. assumption. Qed.

(** The distance dominates the offset on each axis. *)
Lemma dist_dominates_x x1 y1 x2 y2 : Rabs (x2 - x1) <= P5.dist x1 y1 x2 y2.
Proof.
  unfold P5.dist. rewrite <- sqrt_Rsqr_abs. apply sqrt_le_1_alt.
  pose proof (Rle_0_sqr (y2 - y1)) as H. unfold Rsqr in *. lra.
Qed.

Lemma dist_dominates_y x1 y1 x2 y2 : Rabs (y2 - y1) <= P5.dist x1 y1 x2 y2.
Proof.
  unfold P5.dist. rewrite <- sqrt_Rsqr_abs. apply sqrt_le_1_alt.
  pose proof (Rle_0_sqr (x2 - x1)) as H. unfold Rsqr in *. lra.
Qed.

(** Comparing a distance with a positive radius is comparing the squares. *)
Lemma sqrt_lt_radius a r : 0 < r -> (sqrt a < r <-> a < r * r).
Proof.
  intros Hr. split; intros H.
  - destruct (Rle_dec 0 a) as [Ha | Ha]; [ | nra ].
    pose proof (sqrt_sqrt a Ha) as Hs. pose proof (sqrt_pos a) as Hp.
    set (s := sqrt a) in *. nra.
  - destruct (Rle_dec 0 a) as [Ha | Ha].
    + rewrite <- (sqrt_sq_nonneg r) by lra. apply sqrt_lt_1_alt. lra.
    + rewrite sqrt_neg_0 by lra. lra.
Qed.

Lemma dist_ltb x1 y1 x2 y2 r :
  0 < r ->
  Rltb (P5.dist x1 y1 x2 y2) r
  = Rltb ((x2 - x1) * (x2 - x1) + (y2 - y1) * (y2 - y1)) (r * r).
Proof.
  intros Hr. unfold P5.dist.
  destruct (Rlt_dec ((x2 - x1) * (x2 - x1) + (y2 - y1) * (y2 - y1)) (r * r)) as [H | H].
  - rewrite (Rltb_true _ (r * r)) by assumption.
    apply Rltb_true. apply sqrt_lt_radius; assumption.
  - rewrite (Rltb_false _ (r * r)) by lra.
    apply Rltb_false. apply Rnot_lt_le. intros C.
    apply sqrt_lt_radius in C; [ contradiction | assumption ].
Qed.

(** ** Boundary.intersects *)

(** A point of the closed rectangle within the radius of the centre makes
    the bounding-box test succeed. *)
Lemma intersects_when_point_near
    (b : Boundary.t) (range : Circle.t) (px py : R) :
  Boundary.x b - Boundary.w b <= px <= Boundary.x b + Boundary.w b ->
  Boundary.y b - Boundary.h b <= py <= Boundary.y b + Boundary.h b ->
  P5.dist (Circle.x range) (Circle.y range) px py <= Circle.r range ->
  Boundary.intersects b range = true.
Proof.
  intros Hx Hy Hd.
  pose proof (dist_dominates_x (Circle.x range) (Circle.y range) px py) as Dx.
  pose proof (dist_dominates_y (Circle.x range) (Circle.y range) px py) as Dy.
  unfold Boundary.intersects.
  assert (Ex : Rabs (px - Circle.x range) <= Circle.r range) by lra.
  assert (Ey : Rabs (py - Circle.y range) <= Circle.r range) by lra.
  apply Rabs_le_bounds in Ex, Ey.
  rdecide. reflexivity.
Qed.

(** C2. Whenever some point of the closed rectangle of a boundary lies at
    distance at most [r] from the centre of a circular range, the broad-phase
    test [Boundary.intersects] answers true: it has no false negative.  The
    half-open rectangle of [Boundary.contains] is part of the closed one. *)
Theorem intersects_no_false_negative
    (b : Boundary.t) (range : Circle.t) (px py : R) :
  Boundary.x b - Boundary.w b <= px <= Boundary.x b + Boundary.w b ->
  Boundary.y b - Boundary.h b <= py <= Boundary.y b + Boundary.h b ->
  P5.dist (Circle.x range) (Circle.y range) px py <= Circle.r range ->
  Boundary.intersects b range = true.
Proof. apply intersects_when_point_near. Qed.

Lemma intersects_no_false_negative_witness :
  Boundary.intersects (Boundary.mk 400 300 400 300) (Circle.mk 900 300 120)
  = true.
Proof.
  apply (intersects_no_false_negative _ _ 800 300); cbn.
  - lra.
  - lra.
  - unfold P5.dist.
    replace ((800 - 900) * (800 - 900) + (300 - 300) * (300 - 300))
      with (100 * 100) by lra.
    rewrite sqrt_sq_nonneg; lra.
Defined.

(** ** drawConnection *)

(** C9, as stated, fails for the stroke weight: at the connection radius the
    alpha is zero but the stroke weight is 0.1. *)
Lemma stroke_weight_at_radius_not_zero :
  let l := drawConnection 0 Particle.origin Particle.origin connectionDistance in
  strokeAlpha l = 0 /\ strokeWeight l = 0.1 /\ strokeWeight l <> 0.
Proof.
  cbv [drawConnection strokeAlpha strokeWeight P5.map connectionDistance].
  repeat split; try lra.
Qed.

(** C9, amended. For every distance [d] between 0 and the connection radius,
    alpha and stroke weight are affine functions of [d], greatest at [d = 0]
    (alpha 1, weight 2); at the connection radius alpha is 0 and the stroke
    weight is 0.1. *)
Theorem connection_strength_linear
    (cs : R) (p1 p2 : Particle.t) (d : R) :
  0 <= d <= connectionDistance ->
  let strength x := drawConnection cs p1 p2 x in
  strokeAlpha (strength d) = 1 - d / connectionDistance
  /\ strokeWeight (strength d) = 2 - 1.9 * (d / connectionDistance)
  /\ strokeAlpha (strength d) <= strokeAlpha (strength 0)
  /\ strokeWeight (strength d) <= strokeWeight (strength 0)
  /\ strokeAlpha (strength 0) = 1
  /\ strokeWeight (strength 0) = 2
  /\ strokeAlpha (strength connectionDistance) = 0
  /\ strokeWeight (strength connectionDistance) = 0.1.
Proof.
  cbv [drawConnection strokeAlpha strokeWeight P5.map connectionDistance].
  intros Hd. repeat split; lra.
Qed.

Lemma connection_strength_linear_witness :
  strokeAlpha (drawConnection 0 Particle.origin Particle.origin 60) = 1 - 60 / connectionDistance.
Proof.
  apply (connection_strength_linear 0 Particle.origin Particle.origin 60).
  unfold connectionDistance. lra.
Defined.

(** ** Particle.update *)

Lemma magSq_nonneg v : 0 <= Vec.magSq v.
Proof. unfold Vec.magSq. nra. Qed.

Lemma limit_magSq v max : 0 <= max -> Vec.magSq (Vec.limit v max) <= max * max.
Proof.
  intros Hmax. unfold Vec.limit, Rgtb.
  destruct (Rltb (max * max) (Vec.magSq v)) eqn:E.
  - apply Rltb_lt in E.
    assert (Hpos : 0 < Vec.magSq v) by nra.
    pose proof (sqrt_lt_R0 _ Hpos) as Hs.
    pose proof (sqrt_sqrt (Vec.magSq v) (Rlt_le _ _ Hpos)) as Hss.
    unfold Vec.div. rewrite Reqb_false by lra.
    set (s := sqrt (Vec.magSq v)) in *.
    unfold Vec.magSq in *. cbn.
    assert (Heq : Vec.x v / s * max * (Vec.x v / s * max)
                  + Vec.y v / s * max * (Vec.y v / s * max)
                  = (Vec.x v * Vec.x v + Vec.y v * Vec.y v) / (s * s) * (max * max))
      by (field; lra).
    rewrite Heq, <- Hss. right. field. lra.
  - apply Rltb_ge in E. assumption.
Qed.

Lemma mag_le_of_magSq v m : 0 <= m -> Vec.magSq v <= m * m -> Vec.mag v <= m.
Proof.
  intros Hm H. unfold Vec.mag.
  rewrite <- (sqrt_sq_nonneg m Hm). apply sqrt_le_1_alt. assumption.
Qed.

Lemma wrap_range c max : 0 <= max -> 0 <= Particle.wrap c max <= max.
Proof.
  intros Hmax. unfold Particle.wrap, Rgtb.
  destruct (Rltb c 0) eqn:E1.
  - rewrite Rltb_false by lra. lra.
  - apply Rltb_ge in E1.
    destruct (Rltb max c) eqn:E2.
    + lra.
    + apply Rltb_ge in E2. lra.
Qed.

(** The edge handling is a reset, not a modulo wrap. *)
Lemma wrap_resets c max :
  0 <= max ->
  (c < 0 -> Particle.wrap c max = max)
  /\ (max < c -> Particle.wrap c max = 0)
  /\ (0 <= c <= max -> Particle.wrap c max = c).
Proof.
  intros Hmax. unfold Particle.wrap, Rgtb.
  repeat split; intros H.
  - rewrite (Rltb_true c 0) by lra. rewrite Rltb_false by lra. reflexivity.
  - rewrite (Rltb_false c 0) by lra. rewrite Rltb_true by lra. reflexivity.
  - rewrite (Rltb_false c 0) by lra. rewrite Rltb_false by lra. reflexivity.
Qed.

(** C7. After a call of [update] on a canvas of non-negative size, the
    velocity magnitude is at most [maxSpeed]; each coordinate of the position
    lies in the closed canvas range, being the coordinate [c] reached by the
    move when [0 <= c <= max], the maximum when [c < 0] and 0 when
    [c > max]; and the hue of a particle whose hue was non-negative, as the
    constructor and every earlier update leave it, lies in [[0, 360)]. *)
Theorem update_invariants
    (env : Env) (rep : bool) (angle : R) (p : Particle.t) :
  0 <= width env -> 0 <= height env -> 0 <= Particle.hue p ->
  let p' := Particle.update env rep angle p in
  let moved :=
    Vec.add (Particle.pos p)
            (Vec.limit (Vec.add (Particle.vel p) (Particle.acc p')) maxSpeed) in
  Vec.mag (Particle.vel p') <= maxSpeed
  /\ 0 <= Particle.hue p' < 360
  /\ 0 <= Vec.x (Particle.pos p') <= width env
  /\ 0 <= Vec.y (Particle.pos p') <= height env
  /\ (Vec.x moved < 0 -> Vec.x (Particle.pos p') = width env)
  /\ (width env < Vec.x moved -> Vec.x (Particle.pos p') = 0)
  /\ (0 <= Vec.x moved <= width env -> Vec.x (Particle.pos p') = Vec.x moved)
  /\ (Vec.y moved < 0 -> Vec.y (Particle.pos p') = height env)
  /\ (height env < Vec.y moved -> Vec.y (Particle.pos p') = 0)
  /\ (0 <= Vec.y moved <= height env -> Vec.y (Particle.pos p') = Vec.y moved).
Proof.
  intros Hw Hh Hhue p' moved. subst p' moved. unfold Particle.update. cbn.
  repeat split; try (apply wrap_range; assumption);
    try (apply js_rem_range; lra);
    try (apply wrap_resets; assumption).
  apply mag_le_of_magSq; [ unfold maxSpeed; lra | ].
  match goal with
  | |- Vec.magSq (Vec.mult (Vec.limit ?v maxSpeed) _) <= _ =>
    pose proof (limit_magSq v maxSpeed ltac:(unfold maxSpeed; lra)) as L;
    pose proof (magSq_nonneg (Vec.limit v maxSpeed)) as N;
    set (u := Vec.limit v maxSpeed) in *
  end.
  unfold Vec.magSq in *. cbn. unfold maxSpeed in *. nra.
Qed.

Lemma update_invariants_witness :
  Vec.mag (Particle.vel
             (Particle.update env_idle false 0 (particle_at 10 10)))
  <= maxSpeed.
Proof.
  apply (update_invariants env_idle false 0 (particle_at 10 10)); cbn; lra.
Defined.

(** The hue the constructor draws lies in [[0, 360)]. *)
Lemma new_hue_range env u :
  0 <= u 4%nat < 1 -> 0 <= Particle.hue (Particle.new env u) < 360.
Proof. intros H. cbn. unfold P5.random1. lra. Qed.

(** With the mouse pressed and no farther than 5 from the particle, no
    assignment to [this.acc] is executed before the perturbation is added:
    the acceleration of the previous call is carried into this one. *)
Lemma update_acc_pressed_near env rep angle p :
  mouseIsPressed env = true ->
  Vec.mag (Vec.sub (Vec.mk (mouseX env) (mouseY env)) (Particle.pos p)) <= 5 ->
  Particle.acc (Particle.update env rep angle p)
  = Vec.add (Particle.acc p) (Vec.mult (Vec.random2D angle) 0.01).
Proof.
  intros Hp Hd. unfold Particle.update, Particle.pointer_acc. cbn.
  rewrite Hp. unfold Rgtb. rewrite Rltb_false by assumption. reflexivity.
Qed.

(** With the mouse released the acceleration starts from the zero vector,
    and with the mouse pressed farther than 5 from the pointer force;
    neither reads the old acceleration. *)
Lemma update_acc_fresh env rep angle p q :
  Particle.pos p = Particle.pos q ->
  mouseIsPressed env = false
  \/ 5 < Vec.mag (Vec.sub (Vec.mk (mouseX env) (mouseY env)) (Particle.pos p)) ->
  Particle.acc (Particle.update env rep angle p)
  = Particle.acc (Particle.update env rep angle q).
Proof.
  intros Hpos H. unfold Particle.update, Particle.pointer_acc. cbn.
  rewrite <- Hpos.
  destruct (mouseIsPressed env); [ | reflexivity ].
  destruct H as [H | H]; [ discriminate | ].
  unfold Rgtb. rewrite Rltb_true by assumption. reflexivity.
Qed.

(** C6 on the code. With the mouse pressed at distance 0 from the particle,
    [update] adds the perturbation to the acceleration left by the previous
    call: from the old acceleration [(0.5, 0)] and the angle 0 the new
    acceleration is [(0.51, 0)] and the new velocity [(0.5049, 0)], where a
    particle in the same state with old acceleration zero gets [(0.01, 0)]
    and [(0.0099, 0)]. *)
Theorem update_carries_old_acceleration :
  let upd ax := Particle.update env_pressed_on_particle false 0
                                (particle_with_old_acc ax) in
  Particle.acc (upd 0.5) = Vec.mk 0.51 0
  /\ Particle.vel (upd 0.5) = Vec.mk 0.5049 0
  /\ Particle.acc (upd 0) = Vec.mk 0.01 0
  /\ Particle.vel (upd 0) = Vec.mk 0.0099 0.
Proof.
  assert (Hnear : forall ax,
    Vec.mag (Vec.sub (Vec.mk (mouseX env_pressed_on_particle)
                             (mouseY env_pressed_on_particle))
                     (Particle.pos (particle_with_old_acc ax))) <= 5).
  { intros ax. unfold Vec.mag, Vec.magSq. cbn.
    replace ((100 - 100) * (100 - 100) + (100 - 100) * (100 - 100)) with 0 by lra.
    rewrite sqrt_0. lra. }
  assert (Hacc : forall ax,
    Particle.acc (Particle.update env_pressed_on_particle false 0
                                  (particle_with_old_acc ax))
    = Vec.mk (ax + 0.01) 0).
  { intros ax. rewrite update_acc_pressed_near by (reflexivity || apply Hnear).
    unfold Vec.add, Vec.mult, Vec.random2D, Vec.fromAngle. cbn.
    rewrite cos_0, sin_0. f_equal; lra. }
  assert (Hvel : forall ax, 0 <= ax <= 1 ->
    Particle.vel (Particle.update env_pressed_on_particle false 0
                                  (particle_with_old_acc ax))
    = Vec.mk ((ax + 0.01) * 0.99) 0).
  { intros ax Hax.
    pose proof (Hacc ax) as A. unfold Particle.update in *. cbn in A. cbn.
    rewrite A. unfold Vec.add. cbn. unfold Vec.limit, Vec.magSq, maxSpeed. cbn.
    unfold Rgtb. rewrite Rltb_false by nra.
    unfold Vec.mult. cbn. f_equal; lra. }
  intros upd. subst upd. cbv beta. rewrite !Hacc, !Hvel by lra.
  repeat split; f_equal; lra.
Qed.

(** ** keyPressed *)

Lemma length_iter_pop n (ps : list Particle.t) :
  length (Nat.iter n pop ps) = (length ps - n)%nat.
Proof.
  induction n as [ | n IH].
  - cbn. lia.
  - change (Nat.iter (S n) pop ps) with (pop (Nat.iter n pop ps)).
    unfold pop at 1. rewrite removelast_firstn_len, length_take, IH. lia.
Qed.

Lemma length_push_new env rnd n ps :
  length (push_new env rnd n ps) = (length ps + n)%nat.
Proof.
  unfold push_new. rewrite length_app, length_map, length_seq. reflexivity.
Qed.

Lemma key_remove_particles env rnd key st :
  key = "d"%string \/ key = "D"%string ->
  particles (keyPressed env rnd key st)
  = if (10 <? length (particles st))%nat
    then Nat.iter 10 pop (particles st) else particles st.
Proof.
  intros [-> | ->]; unfold keyPressed; cbn [key_is String.eqb Ascii.eqb Bool.eqb orb andb particles];
    destruct (10 <? length (particles st))%nat eqn:E; cbn; try reflexivity.
Qed.

Lemma key_add_particles env rnd key st :
  key = "a"%string \/ key = "A"%string ->
  particles (keyPressed env rnd key st) = push_new env rnd 10 (particles st).
Proof.
  intros [-> | ->]; unfold keyPressed; cbn; reflexivity.
Qed.

Lemma key_add_or_remove_positive env rnd key st :
  add_or_remove key ->
  (0 < length (particles st))%nat ->
  (0 < length (particles (keyPressed env rnd key st)))%nat.
Proof.
  intros [H | [H | [H | H]]] Hpos.
  1,2: rewrite key_add_particles by auto; rewrite length_push_new; lia.
  all: rewrite key_remove_particles by auto;
    destruct (10 <? length (particles st))%nat eqn:E; [ | assumption ];
    apply Nat.ltb_lt in E; rewrite length_iter_pop; lia.
Qed.

Lemma run_keys_positive env keys :
  forall rnd st,
    Forall add_or_remove keys ->
    (0 < length (particles st))%nat ->
    (0 < length (particles (run_keys env rnd keys st)))%nat.
Proof.
  induction keys as [ | key rest IH]; intros rnd st Hk Hpos; cbn.
  - assumption.
  - inversion Hk as [ | ? ? Hkey Hrest]; subst.
    apply IH; [ assumption | ].
    apply key_add_or_remove_positive; assumption.
Qed.

(** C10. The floor of the population is 0 and a remove command takes 10
    particles: the command is a no-op whenever it would bring the count to 0
    or below (count - 10 <= 0), otherwise it removes exactly 10; hence a
    population that is above the floor stays above it under every sequence of
    add and remove commands. *)
Theorem remove_respects_floor
    (env : Env) (rnd : nat -> nat -> nat -> R)
    (keys : list string) (key : string) (st : State) :
  Forall add_or_remove keys ->
  key = "d"%string \/ key = "D"%string ->
  ((Z.of_nat (length (particles st)) - 10 <= 0)%Z ->
   particles (keyPressed env (rnd 0%nat) key st) = particles st)
  /\ ((0 < Z.of_nat (length (particles st)) - 10)%Z ->
      Z.of_nat (length (particles (keyPressed env (rnd 0%nat) key st)))
      = (Z.of_nat (length (particles st)) - 10)%Z)
  /\ ((0 < length (particles st))%nat ->
      (0 < length (particles (run_keys env rnd keys st)))%nat).
Proof.
  intros Hkeys Hkey. repeat split.
  - intros H. rewrite key_remove_particles by assumption.
    destruct (10 <? length (particles st))%nat eqn:E; [ | reflexivity ].
    apply Nat.ltb_lt in E. lia.
  - intros H. rewrite key_remove_particles by assumption.
    destruct (10 <? length (particles st))%nat eqn:E.
    + rewrite length_iter_pop. lia.
    + apply Nat.ltb_ge in E. lia.
  - apply run_keys_positive. assumption.
Qed.

Lemma remove_respects_floor_witness :
  (0 < length (particles
                 (run_keys env_idle zero_draws ["d"; "a"; "d"]%string
                           (state_of [particle_at 10 10] true))))%nat.
Proof.
  apply (remove_respects_floor env_idle zero_draws
           ["d"; "a"; "d"]%string "d"%string).
  - constructor; [ right; right; left; reflexivity | ].
    constructor; [ left; reflexivity | ].
    constructor; [ right; right; left; reflexivity | ].
    constructor.
  - left. reflexivity.
  - cbn. lia.
Defined.

(** ** QuadTree.insert *)

Lemma contains_spec b point :
  Boundary.contains b point = true <->
  Boundary.x b - Boundary.w b <= Vec.x (Particle.pos point)
                               < Boundary.x b + Boundary.w b
  /\ Boundary.y b - Boundary.h b <= Vec.y (Particle.pos point)
                                  < Boundary.y b + Boundary.h b.
Proof.
  unfold Boundary.contains, Rgeb.
  rewrite !andb_true_iff, !Rleb_le, !Rltb_lt. tauto.
Qed.

(** The quadrants of a boundary cover its half-open rectangle. *)
Lemma contains_quadrants b point :
  Boundary.contains b point = true ->
  Boundary.contains (ne_of b) point = true
  \/ Boundary.contains (nw_of b) point = true
  \/ Boundary.contains (se_of b) point = true
  \/ Boundary.contains (sw_of b) point = true.
Proof.
  rewrite !contains_spec. cbn. intros [Hx Hy].
  destruct (Rlt_dec (Vec.x (Particle.pos point)) (Boundary.x b));
    destruct (Rlt_dec (Vec.y (Particle.pos point)) (Boundary.y b)).
  - right; left. lra.
  - right; right; right. lra.
  - left. lra.
  - right; right; left. lra.
Qed.

Lemma shaped_full_when_divided c q : shaped c q -> full_when_divided q.
Proof.
  induction q as [b c' ps | b c' ps ne IHne nw IHnw se IHse sw IHsw]; cbn.
  - intros [-> H]. assumption.
  - intros (-> & Hl & _ & _ & _ & _ & H1 & H2 & H3 & H4).
    repeat split; auto.
Qed.

Lemma shaped_new b c : shaped c (QuadTree.new b c).
Proof. cbn. split; [ reflexivity | lia ]. Qed.

Lemma shaped_subdivide c b ps :
  length ps = c -> shaped c (QuadTree.subdivide (QuadTree.Leaf b c ps)).
Proof.
  intros H. cbn. repeat split; try reflexivity; try assumption; lia.
Qed.

Lemma stored_subdivide deref b c ps x :
  stored deref (QuadTree.Leaf b c ps) x ->
  stored deref (QuadTree.subdivide (QuadTree.Leaf b c ps)) x.
Proof. cbn. tauto. Qed.

(** [stored] reads the store only at the reference asked for. *)
Lemma stored_ext deref deref' q x :
  deref x = deref' x -> stored deref q x -> stored deref' q x.
Proof.
  intros E.
  induction q as [b c ps | b c ps ne IHne nw IHnw se IHse sw IHsw]; cbn.
  - rewrite E. tauto.
  - rewrite E. tauto.
Qed.

Ltac insert_cases H :=
  repeat match type of H with
  | context [match QuadTree.insert ?f ?d ?q ?p with _ => _ end] =>
    let E := fresh "E" in
    destruct (QuadTree.insert f d q p) as [[? [|]]|] eqn:E;
    try discriminate H
  end.

Ltac split6 := split; [ | split; [ | split; [ | split; [ | split ] ] ] ].

Lemma insert_spec c fuel : forall deref q p q' r,
  shaped c q ->
  QuadTree.insert fuel deref q p = Some (q', r) ->
  shaped c q'
  /\ QuadTree.boundary q' = QuadTree.boundary q
  /\ r = Boundary.contains (QuadTree.boundary q) (deref p)
  /\ (r = true -> stored deref q' p)
  /\ (forall deref' x, stored deref' q x -> stored deref' q' x)
  /\ Permutation (all_points q') (if r then p :: all_points q else all_points q).
Proof.
  induction fuel as [ | fuel IH]; intros deref q p q' r Hs H; [ discriminate | ].
  cbn [QuadTree.insert] in H.
  destruct (Boundary.contains (QuadTree.boundary q) (deref p)) eqn:Hc; cbn [negb] in H.
  2:{ inversion H; subst. repeat split; auto; try reflexivity; try lia; try discriminate. }
  destruct (length (QuadTree.points q) <? QuadTree.capacity q)%nat eqn:Hl.
  { inversion H; subst. apply Nat.ltb_lt in Hl.
    destruct q as [b c' ps | b c' ps ne nw se sw]; cbn in *.
    - destruct Hs as [-> Hs]. rewrite length_app. cbn.
      split6.
      + split; [ reflexivity | lia ].
      + reflexivity.
      + reflexivity.
      + intros _. split; [ assumption | ]. left. apply in_or_app. right. left. reflexivity.
      + intros d x [? [? | []]]. split; auto. left. apply in_or_app; auto.
      + symmetry. apply Permutation_cons_append.
    - destruct Hs as (-> & Hlen & _). lia. }
  apply Nat.ltb_ge in Hl.
  assert (Hq1 : exists b ps ne nw se sw,
    (if negb (QuadTree.divided q) then QuadTree.subdivide q else q) = QuadTree.Divided b c ps ne nw se sw
    /\ b = QuadTree.boundary q
    /\ shaped c (QuadTree.Divided b c ps ne nw se sw)
    /\ (forall d x, stored d q x -> stored d (QuadTree.Divided b c ps ne nw se sw) x)
    /\ all_points (QuadTree.Divided b c ps ne nw se sw) = all_points q).
  { destruct q as [b c' ps | b c' ps ne nw se sw].
    - cbn in Hs, Hl. destruct Hs as [-> Hs].
      do 6 eexists. split; [ reflexivity | ].
      split; [ reflexivity | ].
      split; [ apply shaped_subdivide; lia | ].
      split; [ intros d x; apply stored_subdivide | ].
      cbn; rewrite app_nil_r; reflexivity.
    - cbn in Hs. pose proof Hs as Hs'. destruct Hs as (-> & Hs).
      do 6 eexists. split; [ reflexivity | ].
      split; [ reflexivity | ].
      split; [ assumption | ].
      split; [ auto | ].
      reflexivity. }
  destruct Hq1 as (b & ps & ne & nw & se & sw & Eq1 & Hb & Hs1 & Hst & Hall).
  cbv zeta in H. rewrite Eq1 in H. clear Eq1.
  cbn in Hs1. destruct Hs1 as (_ & Hlen & Bne & Bnw & Bse & Bsw & Sne & Snw & Sse & Ssw).
  assert (Hcb : Boundary.contains b (deref p) = true) by (rewrite Hb; exact Hc).
  insert_cases H; inversion H; subst q' r; clear H;
    repeat match goal with
    | E : QuadTree.insert fuel deref ?X p = Some _, S : shaped c ?X |- _ =>
      let F := fresh "F" in
      pose proof (IH _ _ _ _ _ S E) as F; clear E;
      destruct F as (? & ? & ? & ? & ? & ?)
    end.
  all: repeat match goal with
       | K : true = true -> _ |- _ => specialize (K eq_refl)
       | K : false = true -> _ |- _ => clear K
       end.
  5:{ exfalso.
      destruct (contains_quadrants _ _ Hcb) as [K | [K | [K | K]]]; congruence. }
  all: split6.
  all: try solve [ cbn; repeat split; auto; congruence ].
  all: try solve [ cbn; tauto ].
  all: try solve [ intros d x Hx; apply Hst in Hx; cbn in Hx |- *;
                   destruct Hx as [? [? | [? | [? | [? | ?]]]]];
                   split; auto; right; auto 10 ].
  all: cbn [all_points]; rewrite <- Hall; cbn [all_points];
    repeat match goal with
    | K : all_points _ ≡ₚ _ |- _ => rewrite K; clear K
    end; solve_Permutation.
Qed.

Lemma depth_push q p : depth (QuadTree.push q p) = depth q.
Proof. destruct q; reflexivity. Qed.

Lemma insert_total c fuel : forall deref q p,
  (0 < c)%nat -> shaped c q -> (depth q < fuel)%nat ->
  exists q' r, QuadTree.insert fuel deref q p = Some (q', r)
               /\ (depth q' <= S (depth q))%nat.
Proof.
  induction fuel as [ | fuel IH]; intros deref q p Hc Hs Hf; [ lia | ].
  cbn [QuadTree.insert].
  destruct (Boundary.contains (QuadTree.boundary q) (deref p)); cbn [negb].
  2:{ do 2 eexists. split; [ reflexivity | lia ]. }
  destruct (length (QuadTree.points q) <? QuadTree.capacity q)%nat.
  { do 2 eexists. split; [ reflexivity | rewrite depth_push; lia ]. }
  destruct q as [b c' ps | b c' ps ne nw se sw].
  - cbn in Hs. destruct Hs as [-> _].
    destruct fuel as [ | fuel]; [ cbn in Hf; lia | ].
    destruct c as [ | c]; [ lia | ]. cbn.
    repeat match goal with
           | |- context [Boundary.contains ?b ?x] =>
             destruct (Boundary.contains b x); cbn
           end;
      do 2 eexists; (split; [ reflexivity | cbn; lia ]).
  - cbn in Hs. destruct Hs as (-> & _ & _ & _ & _ & _ & Sne & Snw & Sse & Ssw).
    cbn in Hf. cbn [QuadTree.divided negb].
    destruct (IH deref ne p Hc Sne ltac:(lia)) as (ne' & r1 & -> & D1).
    destruct (IH deref nw p Hc Snw ltac:(lia)) as (nw' & r2 & -> & D2).
    destruct (IH deref se p Hc Sse ltac:(lia)) as (se' & r3 & -> & D3).
    destruct (IH deref sw p Hc Ssw ltac:(lia)) as (sw' & r4 & -> & D4).
    destruct r1; [ | destruct r2; [ | destruct r3 ] ];
      do 2 eexists; (split; [ reflexivity | cbn; lia ]).
Qed.

(** Evaluation of the sketch on concrete inputs: unfold the code, decide the
    comparisons it is stuck on, repeat. *)
Ltac unfold_sketch :=
  cbv beta iota zeta delta
    [ QuadTree.insert QuadTree.query QuadTree.query_points QuadTree.push
      QuadTree.subdivide QuadTree.new QuadTree.boundary QuadTree.capacity
      QuadTree.points QuadTree.divided
      Boundary.contains Boundary.intersects
      Boundary.x Boundary.y Boundary.w Boundary.h
      Circle.x Circle.y Circle.r Vec.x Vec.y
      Vec.add Vec.sub Vec.mult Vec.magSq Vec.limit Vec.random2D Vec.fromAngle
      Particle.pos Particle.vel Particle.acc Particle.hue Particle.baseSize
      Particle.size Particle.pulseSpeed Particle.pulseOffset
      Particle.update Particle.pointer_acc Particle.wrap
      particle_at root_boundary env_idle zero_angles state_of
      width height mouseIsPressed mouseX mouseY frameCount
      particles colorShift repulsionMode useQuadtree quadtree
      insert_all build deref particle_dist
      draw draw_loop draw_step connect_neighbors connect_brute
      advance_all advance_below turn_connections spec_index pairs src dst
      with_index edge_pair reset_to_right_edge crossing_five replicate option_map snd fst flat_map
      maxSpeed connectionDistance
      length app nth seq fold_left negb andb orb List.map
      alter list_alter imap compose
      Nat.ltb Nat.leb Nat.eqb Nat.add Nat.sub
      Rgtb Rgeb ].

Ltac rdecide1 :=
  first
    [ rewrite cos_0 | rewrite sin_0 | rewrite cos_PI | rewrite sin_PI
    | rewrite dist_ltb by lra
    | match goal with
      | |- context [Rltb ?a ?b] =>
        first [ rewrite (Rltb_true a b) by lra
              | rewrite (Rltb_false a b) by lra ]
      | |- context [Rleb ?a ?b] =>
        first [ rewrite (Rleb_true a b) by lra
              | rewrite (Rleb_false a b) by lra ]
      | |- context [Reqb ?a ?b] =>
        first [ rewrite (Reqb_true a b) by lra
              | rewrite (Reqb_false a b) by lra ]
      end ].

Ltac run_sketch := unfold_sketch; repeat (rdecide1; unfold_sketch).

Lemma insert_all_reachable b c fuel deref refs :
  forall q q',
    reachable b c q ->
    insert_all fuel deref q refs = Some q' ->
    reachable b c q'.
Proof.
  induction refs as [ | p rest IH]; intros q q' Hr H; cbn in H.
  - inversion H; subst. assumption.
  - destruct (QuadTree.insert fuel deref q p) as [[q1 r] | ] eqn:E;
      [ | discriminate ].
    apply (IH q1); [ | assumption ].
    eapply reachable_insert; eassumption.
Qed.

Lemma reachable_shaped b c q : reachable b c q -> shaped c q.
Proof.
  induction 1 as [ | fuel deref q p q' r Hr IH E].
  - apply shaped_new.
  - apply (insert_spec c fuel deref q p q' r IH E).
Qed.

(** C3, the part the code keeps: [insert] on a tree the code has built
    answers false exactly when the root boundary does not contain the
    position, and with fuel above the depth it does answer. *)
Lemma insert_false_iff_outside b c q fuel deref p :
  (0 < c)%nat -> reachable b c q -> (depth q < fuel)%nat ->
  exists q' r,
    QuadTree.insert fuel deref q p = Some (q', r)
    /\ r = Boundary.contains (QuadTree.boundary q) (deref p).
Proof.
  intros Hc Hr Hf.
  pose proof (reachable_shaped _ _ _ Hr) as Hs.
  destruct (insert_total c fuel deref q p Hc Hs Hf) as (q' & r & E & _).
  exists q', r. split; [ assumption | ].
  apply (insert_spec c fuel deref q p q' r Hs E).
Qed.

Lemma update_resets_to_right_edge :
  Particle.update env_idle false PI (particle_at 0 300) = reset_to_right_edge.
Proof.
  run_sketch. unfold reset_to_right_edge.
  f_equal; try (f_equal; lra); lra.
Qed.

(** C3 on the code. A particle at rest at [(0, 300)] on the 800 by 600
    canvas that draws the angle [PI] is moved by [update] to [x = -0.01] and
    reset to [x = width]: its position [(800, 300)] lies on the edge of the
    canvas.  [insert] of that particle into the fresh root of the frame
    returns false and leaves the tree empty: the root boundary is tested
    half-open, like every other node. *)
Theorem insert_rejects_particle_on_edge :
  Particle.update env_idle false PI (particle_at 0 300) = reset_to_right_edge
  /\ Particle.pos reset_to_right_edge = Vec.mk (width env_idle) 300
  /\ QuadTree.insert 2 (fun _ => reset_to_right_edge)
                     (QuadTree.new (root_boundary env_idle) 4) 0
     = Some (QuadTree.new (root_boundary env_idle) 4, false).
Proof.
  split; [ exact update_resets_to_right_edge | ].
  split; [ reflexivity | ].
  run_sketch. reflexivity.
Qed.

(** ** The node invariant *)

(** Five particles at [(10, 10)], the scenario of section 8. *)
Lemma build_five_at_one_place :
  build 2 env_idle (replicate 5 (particle_at 10 10))
  = Some (QuadTree.Divided (root_boundary env_idle) 4 [0; 1; 2; 3]%nat
            (QuadTree.new (ne_of (root_boundary env_idle)) 4)
            (QuadTree.Leaf (nw_of (root_boundary env_idle)) 4 [4%nat])
            (QuadTree.new (se_of (root_boundary env_idle)) 4)
            (QuadTree.new (sw_of (root_boundary env_idle)) 4)).
Proof. cbn [replicate]. run_sketch. reflexivity. Qed.

Lemma build_reachable fuel env ps q :
  build fuel env ps = Some q -> reachable (root_boundary env) 4 q.
Proof.
  unfold build. apply insert_all_reachable. apply reachable_new.
Qed.

(** C4, as stated, fails: after five insertions at one place the root is
    subdivided and still holds four particles. *)
Lemma divided_root_keeps_its_particles :
  exists q,
    reachable (root_boundary env_idle) 4 q
    /\ QuadTree.divided q = true
    /\ QuadTree.points q = [0; 1; 2; 3]%nat
    /\ ~ emptied_when_divided q.
Proof.
  eexists. split; [ | split; [ | split ] ].
  - apply (build_reachable 2 env_idle (replicate 5 (particle_at 10 10))).
    apply build_five_at_one_place.
  - reflexivity.
  - reflexivity.
  - cbn. intros [H _]. discriminate.
Qed.

Lemma insert_divided_keeps_points c fuel deref q p q' r :
  shaped c q -> QuadTree.divided q = true ->
  QuadTree.insert fuel deref q p = Some (q', r) ->
  QuadTree.divided q' = true /\ QuadTree.points q' = QuadTree.points q.
Proof.
  intros Hs Hd H.
  destruct q as [b c' ps | b c' ps ne nw se sw]; [ discriminate | ].
  destruct fuel as [ | fuel]; [ discriminate | ].
  cbn in Hs. destruct Hs as (-> & Hlen & _).
  cbn [QuadTree.insert QuadTree.boundary QuadTree.points QuadTree.capacity
       QuadTree.divided negb] in H.
  destruct (Boundary.contains b (deref p)); cbn [negb] in H.
  2:{ inversion H; subst. split; reflexivity. }
  rewrite (proj2 (Nat.ltb_ge _ _)) in H by lia.
  insert_cases H; inversion H; subst; split; reflexivity.
Qed.

(** C4, amended. In every quadtree reachable by calls of [insert], a leaf
    holds at most [capacity] particles and a subdivided node still holds
    exactly [capacity] particles of its own: subdivision keeps the points of
    the node, and a later [insert] into a subdivided node leaves them as they
    are and hands the particle to the children. *)
Theorem reachable_full_when_divided
    (b : Boundary.t) (c : nat) (q : QuadTree.t) :
  reachable b c q ->
  full_when_divided q
  /\ forall fuel deref p q' r,
       QuadTree.divided q = true ->
       QuadTree.insert fuel deref q p = Some (q', r) ->
       QuadTree.divided q' = true /\ QuadTree.points q' = QuadTree.points q.
Proof.
  intros Hr. pose proof (reachable_shaped _ _ _ Hr) as Hs. split.
  - apply (shaped_full_when_divided c). assumption.
  - intros fuel deref p q' r Hd H.
    apply (insert_divided_keeps_points c fuel deref q p q' r); assumption.
Qed.

Lemma reachable_full_when_divided_witness :
  full_when_divided
    (QuadTree.Divided (root_boundary env_idle) 4 [0; 1; 2; 3]%nat
       (QuadTree.new (ne_of (root_boundary env_idle)) 4)
       (QuadTree.Leaf (nw_of (root_boundary env_idle)) 4 [4%nat])
       (QuadTree.new (se_of (root_boundary env_idle)) 4)
       (QuadTree.new (sw_of (root_boundary env_idle)) 4)).
Proof.
  apply (reachable_full_when_divided (root_boundary env_idle) 4).
  apply (build_reachable 2 env_idle (replicate 5 (particle_at 10 10))).
  apply build_five_at_one_place.
Defined.

(** ** QuadTree.query *)

Lemma query_points_filter deref range ps :
  forall found,
    QuadTree.query_points deref range ps found
    = found ++ List.filter (in_range deref range) ps.
Proof.
  unfold QuadTree.query_points.
  induction ps as [ | p ps IH]; intros found; cbn.
  - rewrite app_nil_r. reflexivity.
  - rewrite IH. unfold in_range at 2.
    destruct (Rltb _ _); [ rewrite <- app_assoc | ]; reflexivity.
Qed.

(** [query] only appends to the accumulator it is given. *)
Lemma query_acc deref range q :
  forall found,
    QuadTree.query deref q range found
    = found ++ QuadTree.query deref q range [].
Proof.
  induction q as [b c ps | b c ps ne IHne nw IHnw se IHse sw IHsw];
    intros found; cbn [QuadTree.query QuadTree.boundary QuadTree.points];
    destruct (Boundary.intersects b range); cbn [negb];
    rewrite ?app_nil_r; try reflexivity.
  - rewrite !query_points_filter. reflexivity.
  - rewrite (IHsw (QuadTree.query _ _ _ (QuadTree.query _ _ _ (QuadTree.query _ _ _ (QuadTree.query_points _ _ _ [])))))
    , (IHse (QuadTree.query _ _ _ (QuadTree.query _ _ _ (QuadTree.query_points _ _ _ []))))
    , (IHnw (QuadTree.query _ _ _ (QuadTree.query_points _ _ _ [])))
    , (IHne (QuadTree.query_points _ _ _ [])).
    rewrite IHsw, IHse, IHnw, IHne, !query_points_filter.
    cbn [app]. rewrite <- !app_assoc. reflexivity.
Qed.

(** What [query] returns on an empty accumulator, node by node. *)
Lemma query_unfold deref range q :
  QuadTree.query deref q range []
  = if Boundary.intersects (QuadTree.boundary q) range then
      List.filter (in_range deref range) (QuadTree.points q)
      ++ match q with
         | QuadTree.Leaf _ _ _ => []
         | QuadTree.Divided _ _ _ ne nw se sw =>
           QuadTree.query deref ne range []
           ++ QuadTree.query deref nw range []
           ++ QuadTree.query deref se range []
           ++ QuadTree.query deref sw range []
         end
    else [].
Proof.
  destruct q as [b c ps | b c ps ne nw se sw];
    cbn [QuadTree.query QuadTree.boundary QuadTree.points];
    destruct (Boundary.intersects b range); cbn [negb]; try reflexivity.
  - rewrite query_points_filter, app_nil_r. reflexivity.
  - rewrite (query_acc deref range sw), (query_acc deref range se),
      (query_acc deref range nw), (query_acc deref range ne),
      query_points_filter.
    cbn [app]. rewrite <- !app_assoc. reflexivity.
Qed.

Lemma sublist_list_filter {A} (f : A -> bool) (l : list A) :
  List.filter f l `sublist_of` l.
Proof.
  induction l as [ | a l IH]; cbn.
  - constructor.
  - destruct (f a); constructor; assumption.
Qed.

(** The result is a sub-sequence of the references the tree holds. *)
Lemma query_sublist deref range q :
  QuadTree.query deref q range [] `sublist_of` all_points q.
Proof.
  induction q as [b c ps | b c ps ne IHne nw IHnw se IHse sw IHsw];
    rewrite query_unfold; cbn [all_points QuadTree.boundary QuadTree.points];
    destruct (Boundary.intersects b range); try apply sublist_nil_l.
  - rewrite app_nil_r. apply sublist_list_filter.
  - repeat apply sublist_app; try assumption. apply sublist_list_filter.
Qed.

(** Every reference returned is closer to the centre than the radius. *)
Lemma query_in_range deref range q p :
  In p (QuadTree.query deref q range []) -> in_range deref range p = true.
Proof.
  induction q as [b c ps | b c ps ne IHne nw IHnw se IHse sw IHsw];
    rewrite query_unfold; cbn [QuadTree.boundary QuadTree.points];
    destruct (Boundary.intersects b range); cbn [In]; try tauto;
    rewrite ?in_app_iff, filter_In; cbn [In]; tauto.
Qed.

Lemma contains_in_range_intersects deref b range p :
  Boundary.contains b (deref p) = true ->
  in_range deref range p = true ->
  Boundary.intersects b range = true.
Proof.
  intros Hc Hr. apply contains_spec in Hc. apply Rltb_lt in Hr.
  apply (intersects_when_point_near b range
           (Vec.x (Particle.pos (deref p))) (Vec.y (Particle.pos (deref p))));
    lra.
Qed.

(** No stored reference within the radius is pruned. *)
Lemma query_complete deref range q p :
  stored deref q p ->
  in_range deref range p = true ->
  In p (QuadTree.query deref q range []).
Proof.
  intros Hs Hr.
  induction q as [b c ps | b c ps ne IHne nw IHnw se IHse sw IHsw];
    rewrite query_unfold; cbn [QuadTree.boundary QuadTree.points];
    cbn in Hs; destruct Hs as [Hc Hs];
    rewrite (contains_in_range_intersects deref b range p Hc Hr);
    rewrite ?in_app_iff, filter_In.
  - destruct Hs as [Hs | []]. left. split; assumption.
  - destruct Hs as [Hs | [Hs | [Hs | [Hs | Hs]]]]; auto 10.
Qed.

(** ** The index of a frame *)

Lemma insert_all_spec c fuel deref refs : forall q,
  (0 < c)%nat -> shaped c q -> (depth q + length refs <= fuel)%nat ->
  exists q',
    insert_all fuel deref q refs = Some q'
    /\ shaped c q'
    /\ QuadTree.boundary q' = QuadTree.boundary q
    /\ Permutation (all_points q')
         (List.filter (fun p => Boundary.contains (QuadTree.boundary q) (deref p)) refs
          ++ all_points q)
    /\ (forall deref' x, stored deref' q x -> stored deref' q' x)
    /\ (forall x, In x refs ->
          Boundary.contains (QuadTree.boundary q) (deref x) = true ->
          stored deref q' x).
Proof.
  induction refs as [ | p rest IH]; intros q Hc Hs Hf.
  - exists q. cbn. repeat split; auto. tauto.
  - cbn [length] in Hf. cbn [insert_all].
    destruct (insert_total c fuel deref q p Hc Hs ltac:(lia)) as (q1 & r & E & D).
    rewrite E.
    destruct (insert_spec c fuel deref q p q1 r Hs E) as (S1 & B1 & R1 & St1 & M1 & P1).
    destruct (IH q1 Hc S1 ltac:(lia)) as (q' & E' & S' & B' & P' & M' & St').
    exists q'. split; [ assumption | ]. split; [ assumption | ].
    split; [ congruence | ].
    split; [ | split ].
    + rewrite P', B1, P1. cbn [List.filter]. rewrite <- R1.
      destruct r; [ | reflexivity ].
      cbn [app]. symmetry. apply Permutation_middle.
    + intros d x Hx. apply M', M1, Hx.
    + intros x [-> | Hin] Hx.
      * apply M'. apply St1. congruence.
      * apply St'; [ assumption | congruence ].
Qed.

Lemma NoDup_list_filter {A} (f : A -> bool) (l : list A) :
  NoDup l -> NoDup (List.filter f l).
Proof. intros H. eapply sublist_NoDup; [ exact H | apply sublist_list_filter ]. Qed.

Lemma build_spec fuel env ps :
  (length ps < fuel)%nat ->
  exists qt,
    build fuel env ps = Some qt
    /\ NoDup (all_points qt)
    /\ (forall j, In j (all_points qt) -> (j < length ps)%nat)
    /\ (forall deref' j,
          (j < length ps)%nat -> deref' j = deref ps j ->
          Boundary.contains (root_boundary env) (deref ps j) = true ->
          stored deref' qt j).
Proof.
  intros Hf. unfold build.
  destruct (insert_all_spec 4 fuel (deref ps) (seq 0 (length ps))
              (QuadTree.new (root_boundary env) 4) ltac:(lia)
              (shaped_new _ _)) as (qt & E & _ & _ & P & _ & St).
  { cbn. rewrite length_seq. lia. }
  exists qt. split; [ assumption | ].
  cbn [all_points QuadTree.new] in P. rewrite app_nil_r in P.
  split; [ | split ].
  - rewrite P. apply NoDup_list_filter. apply NoDup_seq.
  - intros j Hj. eapply Permutation_in in Hj; [ | exact P ].
    apply filter_In in Hj. destruct Hj as [Hj _].
    apply in_seq in Hj. lia.
  - intros d j Hj Hd Hc. apply (stored_ext (deref ps)); [ congruence | ].
    apply St; [ apply in_seq; lia | exact Hc ].
Qed.

(** ** The loop of draw *)

Lemma deref_lookup (ps : list Particle.t) i :
  deref ps i = default Particle.origin (ps !! i).
Proof. unfold deref. apply nth_lookup. Qed.

Section Loop.
Variables (env : Env) (rep : bool) (angles : nat -> R).
Variables (useQ : bool) (qt : QuadTree.t) (cs : R).

Lemma length_advance_below i (ps : list Particle.t) :
  length (advance_below env rep angles i ps) = length ps.
Proof. unfold advance_below. apply length_imap. Qed.

Lemma advance_below_0 (ps : list Particle.t) :
  advance_below env rep angles 0 ps = ps.
Proof.
  unfold advance_below. apply list_eq. intros j.
  rewrite list_lookup_imap. destruct (ps !! j); reflexivity.
Qed.

Lemma advance_below_all i (ps : list Particle.t) :
  (length ps <= i)%nat ->
  advance_below env rep angles i ps = advance_all env rep angles ps.
Proof.
  intros Hi. unfold advance_below, advance_all. apply list_eq. intros j.
  rewrite !list_lookup_imap.
  destruct (ps !! j) eqn:E; [ | reflexivity ]. cbn -[Nat.ltb].
  apply lookup_lt_Some in E.
  rewrite (proj2 (Nat.ltb_lt j i)) by lia. reflexivity.
Qed.

Lemma advance_below_step i (ps : list Particle.t) :
  alter (Particle.update env rep (angles i)) i
        (advance_below env rep angles i ps)
  = advance_below env rep angles (S i) ps.
Proof.
  unfold advance_below. apply list_eq. intros j.
  destruct (decide (i = j)) as [<- | Hne].
  - rewrite list_lookup_alter_eq, !list_lookup_imap.
    destruct (ps !! i); [ | reflexivity ]. cbn -[Nat.ltb].
    rewrite Nat.ltb_irrefl, (proj2 (Nat.ltb_lt i (S i))) by lia. reflexivity.
  - rewrite list_lookup_alter_ne by assumption. rewrite !list_lookup_imap.
    destruct (ps !! j); [ | reflexivity ]. cbn -[Nat.ltb].
    destruct (j <? i)%nat eqn:E1, (j <? S i)%nat eqn:E2; try reflexivity.
    + apply Nat.ltb_lt in E1. apply Nat.ltb_ge in E2. lia.
    + apply Nat.ltb_ge in E1. apply Nat.ltb_lt in E2. lia.
Qed.

(** A particle that is not yet advanced is read at its frame-start state. *)
Lemma deref_advance_below i (ps : list Particle.t) j :
  (i <= j)%nat -> deref (advance_below env rep angles i ps) j = deref ps j.
Proof.
  intros Hij. rewrite !deref_lookup. unfold advance_below.
  rewrite list_lookup_imap. destruct (ps !! j); [ | reflexivity ]. cbn -[Nat.ltb].
  rewrite (proj2 (Nat.ltb_ge j i)) by lia. reflexivity.
Qed.

Lemma connect_neighbors_app ps i nbs :
  forall out,
    connect_neighbors cs ps i nbs out
    = out ++ List.map (connection cs ps i)
               (List.filter (fun nb => negb ((nb =? i)%nat || (nb <=? i)%nat)
                                       && close_enough ps i nb) nbs).
Proof.
  unfold connect_neighbors.
  induction nbs as [ | nb nbs IH]; intros out; cbn.
  - rewrite app_nil_r. reflexivity.
  - rewrite IH. unfold close_enough at 2.
    destruct ((nb =? i)%nat || (nb <=? i)%nat); cbn; [ reflexivity | ].
    destruct (Rltb _ _); cbn; [ rewrite <- app_assoc | ]; reflexivity.
Qed.

Lemma connect_brute_app ps i :
  forall out,
    connect_brute cs ps i out
    = out ++ List.map (connection cs ps i)
               (List.filter (close_enough ps i)
                            (seq (i + 1) (length ps - (i + 1)))).
Proof.
  unfold connect_brute. generalize (seq (i + 1) (length ps - (i + 1))).
  intros l. induction l as [ | j l IH]; intros out; cbn.
  - rewrite app_nil_r. reflexivity.
  - rewrite IH. unfold close_enough at 2.
    destruct (Rltb _ _); cbn; [ rewrite <- app_assoc | ]; reflexivity.
Qed.

Lemma draw_step_app ps out i :
  draw_step env rep angles useQ qt cs ps out i
  = (alter (Particle.update env rep (angles i)) i ps,
     out ++ turn_connections env rep angles useQ qt cs ps i).
Proof.
  unfold turn_connections, draw_step. destruct useQ; cbn [snd].
  - rewrite connect_neighbors_app,
      (connect_neighbors_app _ _ _ []). reflexivity.
  - rewrite connect_brute_app, (connect_brute_app _ _ []). reflexivity.
Qed.

(** The loop of [draw], turn by turn. *)
Lemma draw_loop_turns (ps : list Particle.t) m :
  forall k out,
    draw_loop env rep angles useQ qt cs (seq k m)
              (advance_below env rep angles k ps) out
    = (advance_below env rep angles (k + m) ps,
       out ++ flat_map
                (fun i => turn_connections env rep angles useQ qt cs
                            (advance_below env rep angles i ps) i)
                (seq k m)).
Proof.
  induction m as [ | m IH]; intros k out; cbn [seq draw_loop flat_map].
  - rewrite Nat.add_0_r, app_nil_r. reflexivity.
  - rewrite draw_step_app, advance_below_step, IH.
    rewrite <- app_assoc. f_equal. f_equal. lia.
Qed.
End Loop.

(** [draw], with its loop unrolled into turns. *)
Lemma draw_turns fuel env angles st :
  draw fuel env angles st
  = match (if useQuadtree st then build fuel env (particles st)
           else Some (quadtree st)) with
    | None => None
    | Some qt =>
      Some (mkState (advance_all env (repulsionMode st) angles (particles st))
                    (js_rem (colorShift st + 0.2) 360)
                    (repulsionMode st) (useQuadtree st) qt,
            flat_map
              (fun i =>
                 turn_connections env (repulsionMode st) angles
                   (useQuadtree st) qt (js_rem (colorShift st + 0.2) 360)
                   (advance_below env (repulsionMode st) angles i (particles st))
                   i)
              (seq 0 (length (particles st))))
    end.
Proof.
  unfold draw.
  destruct (if useQuadtree st then build fuel env (particles st)
            else Some (quadtree st)) as [qt | ]; [ | reflexivity ].
  rewrite <- (advance_below_0 env (repulsionMode st) angles (particles st)) at 2.
  rewrite draw_loop_turns. cbn [app Nat.add].
  rewrite advance_below_all by lia. reflexivity.
Qed.

(** Turn [i] with the index: the query is centred on the advanced particle
    [i] and reads the store in which the particles up to [i] are advanced. *)
Lemma turn_with_index env rep angles qt cs ps i :
  let ps1 := advance_below env rep angles (S i) ps in
  turn_connections env rep angles true qt cs
                   (advance_below env rep angles i ps) i
  = List.map (connection cs ps1 i)
      (List.filter (fun nb => negb ((nb =? i)%nat || (nb <=? i)%nat)
                              && close_enough ps1 i nb)
         (QuadTree.query (deref ps1) qt
            (Circle.mk (Vec.x (Particle.pos (deref ps1 i)))
                       (Vec.y (Particle.pos (deref ps1 i)))
                       connectionDistance) [])).
Proof.
  intros ps1. unfold turn_connections, draw_step. cbn [snd].
  rewrite advance_below_step. fold ps1.
  rewrite connect_neighbors_app. reflexivity.
Qed.

(** Turn [i] without the index: particle [i], advanced, against every later
    particle, not yet advanced. *)
Lemma turn_brute_force env rep angles qt cs ps i :
  let ps1 := advance_below env rep angles (S i) ps in
  turn_connections env rep angles false qt cs
                   (advance_below env rep angles i ps) i
  = List.map (connection cs ps1 i)
      (List.filter (close_enough ps1 i)
                   (seq (i + 1) (length ps - (i + 1)))).
Proof.
  intros ps1. unfold turn_connections, draw_step. cbn [snd].
  rewrite advance_below_step. fold ps1.
  rewrite connect_brute_app. unfold ps1.
  rewrite length_advance_below. reflexivity.
Qed.

Lemma root_contains_inside env (ps : list Particle.t) j :
  inside_half_open env ps -> (j < length ps)%nat ->
  Boundary.contains (root_boundary env) (deref ps j) = true.
Proof.
  intros Hin Hj. apply contains_spec. unfold root_boundary. cbn.
  destruct (Hin (deref ps j)) as [Hx Hy].
  { unfold deref. apply nth_In. assumption. }
  lra.
Qed.

Lemma in_range_close_enough ps i j :
  in_range (deref ps)
           (Circle.mk (Vec.x (Particle.pos (deref ps i)))
                      (Vec.y (Particle.pos (deref ps i)))
                      connectionDistance) j
  = close_enough ps i j.
Proof. reflexivity. Qed.

(** With every particle inside the half-open canvas when the index is built,
    a turn connects the same pairs with and without the index. *)
Lemma turn_same_pairs fuel env rep angles qt ps i j :
  inside_half_open env ps -> (length ps < fuel)%nat ->
  build fuel env ps = Some qt ->
  In j (List.filter (fun nb => negb ((nb =? i)%nat || (nb <=? i)%nat)
                              && close_enough (advance_below env rep angles (S i) ps) i nb)
         (QuadTree.query (deref (advance_below env rep angles (S i) ps)) qt
            (Circle.mk (Vec.x (Particle.pos (deref (advance_below env rep angles (S i) ps) i)))
                       (Vec.y (Particle.pos (deref (advance_below env rep angles (S i) ps) i)))
                       connectionDistance) []))
  <-> In j (List.filter (close_enough (advance_below env rep angles (S i) ps) i)
                        (seq (i + 1) (length ps - (i + 1)))).
Proof.
  intros Hin Hf Hb.
  destruct (build_spec fuel env ps Hf) as (qt0 & E & Hnd & Hlt & Hst).
  rewrite Hb in E. inversion E; subst qt0. clear E.
  set (ps1 := advance_below env rep angles (S i) ps).
  rewrite !filter_In, in_seq, andb_true_iff, negb_true_iff, orb_false_iff.
  rewrite Nat.eqb_neq, Nat.leb_gt. split.
  - intros [Hq [[_ Hij] Hc]]. split; [ | assumption ].
    assert (Hj : In j (all_points qt)).
    { pose proof (query_sublist (deref ps1)
        (Circle.mk (Vec.x (Particle.pos (deref ps1 i)))
                   (Vec.y (Particle.pos (deref ps1 i))) connectionDistance) qt) as S.
      apply list_elem_of_In. eapply sublist_subseteq; [ exact S | ].
      apply list_elem_of_In. exact Hq. }
    apply Hlt in Hj. lia.
  - intros [Hij Hc]. split; [ | split; [ lia | assumption ] ].
    apply query_complete; [ | rewrite in_range_close_enough; assumption ].
    apply Hst; [ lia | | ].
    + unfold ps1. apply deref_advance_below. lia.
    + apply root_contains_inside; [ assumption | lia ].
Qed.

(** ** Index against brute force *)

(** The frame of the failing input, with and without the index. *)
Lemma edge_pair_frames :
  option_map (fun r => pairs (snd r))
             (draw 2 env_idle zero_angles (state_of edge_pair true)) = Some []
  /\ option_map (fun r => pairs (snd r))
                (draw 2 env_idle zero_angles (state_of edge_pair false))
     = Some [(0, 1)%nat].
Proof. rewrite !draw_turns. split; run_sketch; reflexivity. Qed.

(** C1 on the code. On the 800 by 600 canvas, with a particle at
    [(700, 300)] and a second one that the previous update has reset to the
    right edge, at [(800, 300)], the frame that uses the index connects no
    pair, and the frame that scans all pairs connects the pair [(0, 1)]: the
    particle on the edge never entered the index. *)
Theorem index_misses_particle_on_edge :
  Particle.update env_idle false PI (particle_at 0 300) = reset_to_right_edge
  /\ inside_closed env_idle edge_pair
  /\ option_map (fun r => pairs (snd r))
                (draw 2 env_idle zero_angles (state_of edge_pair true))
     = Some []
  /\ option_map (fun r => pairs (snd r))
                (draw 2 env_idle zero_angles (state_of edge_pair false))
     = Some [(0, 1)%nat].
Proof.
  split; [ exact update_resets_to_right_edge | ].
  split; [ | exact edge_pair_frames ].
  intros p [<- | [<- | []]]; cbn; lra.
Qed.

(** With every particle inside the half-open canvas at the start of the
    frame, the frame connects the same pairs, with the same lines, whether
    it uses the index or scans all pairs. *)
Lemma index_agrees_inside_half_open fuel env angles st :
  inside_half_open env (particles st) ->
  (length (particles st) < fuel)%nat ->
  exists stq outq stb outb,
    draw fuel env angles (with_index true st) = Some (stq, outq)
    /\ draw fuel env angles (with_index false st) = Some (stb, outb)
    /\ particles stq = particles stb
    /\ forall c, In c outq <-> In c outb.
Proof.
  intros Hin Hf.
  destruct (build_spec fuel env (particles st) Hf) as (qt & E & _).
  rewrite !draw_turns. cbn [with_index useQuadtree particles quadtree
                            repulsionMode colorShift].
  rewrite E. do 4 eexists.
  split; [ reflexivity | ]. split; [ reflexivity | ].
  split; [ reflexivity | ].
  intros c. rewrite !in_flat_map.
  split; intros (i & Hi & Hc); exists i; (split; [ assumption | ]).
  - rewrite turn_with_index in Hc. rewrite turn_brute_force.
    apply in_map_iff in Hc. destruct Hc as (j & <- & Hj).
    apply in_map. eapply turn_same_pairs; eassumption.
  - rewrite turn_brute_force in Hc. rewrite turn_with_index.
    apply in_map_iff in Hc. destruct Hc as (j & <- & Hj).
    apply in_map. eapply turn_same_pairs; eassumption.
Qed.

(** ** The order of a frame *)

Lemma build_crossing_five :
  build 2 env_idle crossing_five
  = Some (QuadTree.Divided (root_boundary env_idle) 4 [0; 1; 2; 3]%nat
            (QuadTree.new (ne_of (root_boundary env_idle)) 4)
            (QuadTree.Leaf (nw_of (root_boundary env_idle)) 4 [4%nat])
            (QuadTree.new (se_of (root_boundary env_idle)) 4)
            (QuadTree.new (sw_of (root_boundary env_idle)) 4)).
Proof. run_sketch. reflexivity. Qed.

Lemma spec_index_crossing_five :
  spec_index 2 env_idle false zero_angles crossing_five
  = Some (QuadTree.Divided (root_boundary env_idle) 4 [0; 1; 2; 3]%nat
            (QuadTree.Leaf (ne_of (root_boundary env_idle)) 4 [4%nat])
            (QuadTree.new (nw_of (root_boundary env_idle)) 4)
            (QuadTree.new (se_of (root_boundary env_idle)) 4)
            (QuadTree.new (sw_of (root_boundary env_idle)) 4)).
Proof. run_sketch. reflexivity. Qed.

(** C5, as stated, fails: the index that [draw] queries is built before any
    particle is advanced.  With four particles at [(10, 10)] and a fifth at
    [(399.995, 100)] that its update carries to [x = 400.005], the index of
    the frame holds the fifth particle in the north-west child, where the
    index built from the advanced positions holds it in the north-east
    child. *)
Lemma draw_index_not_from_advanced_positions :
  exists st' out q,
    draw 2 env_idle zero_angles (state_of crossing_five true) = Some (st', out)
    /\ spec_index 2 env_idle false zero_angles crossing_five = Some q
    /\ quadtree st' <> q.
Proof.
  rewrite draw_turns.
  cbn [state_of useQuadtree particles quadtree].
  rewrite build_crossing_five, spec_index_crossing_five.
  do 3 eexists. split; [ reflexivity | ]. split; [ reflexivity | ].
  cbn [quadtree]. unfold QuadTree.new. congruence.
Qed.

(** C5, amended. A frame that uses the index first builds it from the
    particles as they are when the frame begins, none advanced yet; then,
    particle by particle in array order, it advances particle [i] and at once
    runs the query of particle [i], centred on its advanced position, in the
    store where the particles up to [i] are advanced and the later ones are
    not.  After the loop every particle is advanced once. *)
Theorem draw_indexes_then_advances
    (fuel : nat) (env : Env) (angles : nat -> R) (st : State) :
  useQuadtree st = true ->
  (length (particles st) < fuel)%nat ->
  let ps := particles st in
  let rep := repulsionMode st in
  let cs := js_rem (colorShift st + 0.2) 360 in
  let store i := advance_below env rep angles i ps in
  exists qt,
    build fuel env ps = Some qt
    /\ draw fuel env angles st
       = Some (mkState (advance_all env rep angles ps) cs rep true qt,
               flat_map (fun i => turn_connections env rep angles true qt cs
                                                   (store i) i)
                        (seq 0 (length ps)))
    /\ forall i,
         turn_connections env rep angles true qt cs (store i) i
         = List.map (connection cs (store (S i)) i)
             (List.filter
                (fun nb => negb ((nb =? i)%nat || (nb <=? i)%nat)
                           && close_enough (store (S i)) i nb)
                (QuadTree.query (deref (store (S i))) qt
                   (Circle.mk (Vec.x (Particle.pos (deref (store (S i)) i)))
                              (Vec.y (Particle.pos (deref (store (S i)) i)))
                              connectionDistance) [])).
Proof.
  intros HQ Hf ps rep cs store.
  destruct (build_spec fuel env ps Hf) as (qt & E & _).
  exists qt. split; [ exact E | ]. split.
  - rewrite draw_turns. rewrite HQ. fold ps. rewrite E. reflexivity.
  - intros i. apply turn_with_index.
Qed.

Lemma draw_indexes_then_advances_witness :
  exists qt, build 3 env_idle edge_pair = Some qt.
Proof.
  destruct (draw_indexes_then_advances 3 env_idle zero_angles
              (state_of edge_pair true) eq_refl ltac:(cbn; lia))
    as (qt & E & _).
  exists qt. exact E.
Defined.

(** ** Uniqueness of the pairs *)

Lemma pairs_flat_map {A} (f : A -> list Connection) (l : list A) :
  pairs (flat_map f l) = flat_map (fun a => pairs (f a)) l.
Proof.
  unfold pairs. induction l as [ | a l IH]; cbn.
  - reflexivity.
  - rewrite List.map_app, IH. reflexivity.
Qed.

Lemma pairs_connections cs ps i (l : list nat) :
  pairs (List.map (connection cs ps i) l) = List.map (pair i) l.
Proof.
  unfold pairs. rewrite List.map_map. reflexivity.
Qed.

(** Blocks of pairs [(i, j)], one block per [i], without repetition inside a
    block and with [i < j] throughout. *)
Lemma unique_blocks (L : nat -> list nat) (idxs : list nat) :
  NoDup idxs ->
  (forall i, NoDup (L i)) ->
  (forall i j, In j (L i) -> (i < j)%nat) ->
  NoDup (flat_map (fun i => List.map (pair i) (L i)) idxs)
  /\ forall i j, In (i, j) (flat_map (fun i => List.map (pair i) (L i)) idxs) ->
                 In i idxs /\ (i < j)%nat.
Proof.
  intros Hnd HL Hlt.
  assert (Hin : forall idxs' i j,
    In (i, j) (flat_map (fun i => List.map (pair i) (L i)) idxs') ->
    In i idxs' /\ (i < j)%nat).
  { intros idxs' i j H. apply in_flat_map in H. destruct H as (k & Hk & H).
    apply in_map_iff in H. destruct H as (j' & Heq & Hj).
    inversion Heq; subst. split; [ assumption | apply Hlt; assumption ]. }
  split; [ | apply Hin ].
  induction Hnd as [ | i idxs' Hi Hnd' IH]; cbn [flat_map].
  - constructor.
  - apply NoDup_app. split; [ | split ].
    + apply NoDup_fmap_2; [ | apply HL ]. intros a b H. congruence.
    + intros [a b] Ha Hb.
      apply list_elem_of_In, in_map_iff in Ha. destruct Ha as (j & Heq & _).
      inversion Heq; subst.
      apply list_elem_of_In, Hin in Hb. destruct Hb as [Hb _].
      apply Hi. apply list_elem_of_In. exact Hb.
    + exact IH.
Qed.

(** C8. With fuel above the number of particles a frame returns, and in the
    connections it emits, with the index and without it, no pair appears
    twice and every pair [(i, j)] has [i < j]: no pair comes with its
    reverse and none is a self-pair. *)
Theorem connections_are_unique
    (fuel : nat) (env : Env) (angles : nat -> R) (st : State) :
  (length (particles st) < fuel)%nat ->
  exists st' out,
    draw fuel env angles st = Some (st', out)
    /\ NoDup (pairs out)
    /\ forall i j, In (i, j) (pairs out) ->
                   (i < j)%nat /\ i <> j /\ ~ In (j, i) (pairs out).
Proof.
  intros Hf.
  assert (Hgoal : exists st' L,
    draw fuel env angles st
    = Some (st', flat_map (fun i => List.map (connection (js_rem (colorShift st + 0.2) 360)
                                     (advance_below env (repulsionMode st) angles (S i) (particles st)) i) (L i))
                          (seq 0 (length (particles st))))
    /\ (forall i, NoDup (L i))
    /\ (forall i j, In j (L i) -> (i < j)%nat)).
  { rewrite draw_turns. destruct (useQuadtree st) eqn:HQ.
    - destruct (build_spec fuel env (particles st) Hf) as (qt & E & Hnd & _).
      rewrite E. eexists. eexists (fun i => _). split; [ | split ].
      + f_equal. f_equal. apply flat_map_ext. intros i.
        rewrite turn_with_index. reflexivity.
      + intros i. cbv beta. apply NoDup_list_filter.
        eapply sublist_NoDup; [ exact Hnd | apply query_sublist ].
      + intros i j Hj. cbv beta in Hj. apply filter_In in Hj.
        destruct Hj as [_ Hj]. apply andb_true_iff in Hj. destruct Hj as [Hj _].
        apply negb_true_iff, orb_false_iff in Hj. destruct Hj as [_ Hj].
        apply Nat.leb_gt in Hj. exact Hj.
    - eexists. eexists (fun i => _). split; [ | split ].
      + f_equal. f_equal. apply flat_map_ext. intros i.
        rewrite turn_brute_force. reflexivity.
      + intros i. cbv beta. apply NoDup_list_filter, NoDup_seq.
      + intros i j Hj. cbv beta in Hj. apply filter_In in Hj.
        destruct Hj as [Hj _]. apply in_seq in Hj. lia. }
  destruct Hgoal as (st' & L & E & HL & Hlt).
  exists st'. eexists. split; [ exact E | ].
  rewrite pairs_flat_map.
  rewrite (flat_map_ext _ (fun i => List.map (pair i) (L i)))
    by (intros i; apply pairs_connections).
  destruct (unique_blocks L (seq 0 (length (particles st)))
              (NoDup_seq _ _) HL Hlt) as [Hnd Hin].
  split; [ exact Hnd | ].
  intros i j Hij. destruct (Hin i j Hij) as [_ Hlt1].
  split; [ assumption | ]. split; [ lia | ].
  intros Hji. destruct (Hin j i Hji) as [_ Hlt2]. lia.
Qed.

Lemma connections_are_unique_witness :
  exists st' out,
    draw 3 env_idle zero_angles (state_of edge_pair false) = Some (st', out)
    /\ NoDup (pairs out).
Proof.
  destruct (connections_are_unique 3 env_idle zero_angles
              (state_of edge_pair false) ltac:(cbn; lia))
    as (st' & out & E & Hnd & _).
  exists st', out. split; assumption.
Defined.

(** * Further properties of the code *)

(** ** subdivide and contains *)

Lemma child_boundaries_quadrants q :
  child_boundaries q
  = [ne_of (QuadTree.boundary q); nw_of (QuadTree.boundary q);
     se_of (QuadTree.boundary q); sw_of (QuadTree.boundary q)].
Proof. reflexivity. Qed.

(** X1. The four children that [subdivide] creates split the half-open
    rectangle of their parent: a point the parent contains is contained by
    exactly one child, and a point the parent does not contain by none. *)
Theorem subdivide_children_partition (q : QuadTree.t) (point : Particle.t) :
  length (List.filter (fun b => Boundary.contains b point) (child_boundaries q))
  = if Boundary.contains (QuadTree.boundary q) point then 1%nat else 0%nat.
Proof.
  rewrite child_boundaries_quadrants.
  set (b := QuadTree.boundary q).
  destruct (Boundary.contains b point) eqn:Hc.
  - apply contains_spec in Hc. destruct Hc as [Hx Hy].
    destruct (Rlt_dec (Vec.x (Particle.pos point)) (Boundary.x b)) as [Lx | Lx];
      destruct (Rlt_dec (Vec.y (Particle.pos point)) (Boundary.y b)) as [Ly | Ly];
      cbn [List.filter];
      unfold Boundary.contains, ne_of, nw_of, se_of, sw_of; cbn;
      rdecide; reflexivity.
  - assert (Hn : forall s, In s (child_boundaries q) ->
                           Boundary.contains s point = false).
    { intros s Hs. destruct (Boundary.contains s point) eqn:E; [ | reflexivity ].
      exfalso. rewrite child_boundaries_quadrants in Hs. fold b in Hs.
      assert (Hb : Boundary.contains b point = true); [ | congruence ].
      apply contains_spec. apply contains_spec in E.
      destruct Hs as [<- | [<- | [<- | [<- | []]]]]; cbn in E; lra. }
    rewrite child_boundaries_quadrants in Hn. fold b in Hn.
    cbn [List.filter].
    rewrite !Hn by (cbn; tauto). reflexivity.
Qed.

(** ** insert *)

(** X2. On a tree the code has built, with positive capacity and fuel above
    the depth, [insert] returns; it answers true exactly when the root
    boundary contains the position; a rejected particle leaves the tree as it
    was, and an accepted one is added once and nothing else is lost or
    duplicated; the root boundary never changes. *)
Theorem insert_adds_exactly_once
    (b : Boundary.t) (c : nat) (q : QuadTree.t) (fuel : nat)
    (deref : nat -> Particle.t) (p : nat) :
  (0 < c)%nat -> reachable b c q -> (depth q < fuel)%nat ->
  exists q' r,
    QuadTree.insert fuel deref q p = Some (q', r)
    /\ r = Boundary.contains (QuadTree.boundary q) (deref p)
    /\ QuadTree.boundary q' = QuadTree.boundary q
    /\ (r = false -> q' = q)
    /\ (r = true -> Permutation (all_points q') (p :: all_points q)).
Proof.
  intros Hc Hr Hf.
  pose proof (reachable_shaped _ _ _ Hr) as Hs.
  destruct (insert_total c fuel deref q p Hc Hs Hf) as (q' & r & E & _).
  destruct (insert_spec c fuel deref q p q' r Hs E) as (_ & B & R & _ & _ & P).
  exists q', r. split; [ exact E | ]. split; [ exact R | ].
  split; [ exact B | ]. split.
  - intros ->. destruct fuel as [ | fuel]; [ discriminate | ].
    cbn [QuadTree.insert] in E. rewrite <- R in E. cbn in E. congruence.
  - intros ->. exact P.
Qed.

Lemma insert_adds_exactly_once_witness :
  exists q' r,
    QuadTree.insert 2 (fun _ => particle_at 10 10)
                    (QuadTree.new (root_boundary env_idle) 4) 0
    = Some (q', r).
Proof.
  destruct (insert_adds_exactly_once (root_boundary env_idle) 4
              (QuadTree.new (root_boundary env_idle) 4) 2
              (fun _ => particle_at 10 10) 0
              ltac:(lia) (reachable_new _ _) ltac:(cbn; lia))
    as (q' & r & E & _).
  exists q', r. exact E.
Defined.

(** The depth is bounded by the number of particles held: every level above
    the last one holds a full node. *)
Lemma shaped_depth c q :
  shaped c q -> (c * (depth q - 1) <= length (all_points q))%nat.
Proof.
  induction q as [b c' ps | b c' ps ne IHne nw IHnw se IHse sw IHsw];
    cbn [shaped depth all_points].
  - intros _. rewrite Nat.sub_diag, Nat.mul_0_r. lia.
  - intros (-> & Hl & _ & _ & _ & _ & Sne & Snw & Sse & Ssw).
    specialize (IHne Sne). specialize (IHnw Snw).
    specialize (IHse Sse). specialize (IHsw Ssw).
    rewrite !length_app.
    assert (D1 : (1 <= depth ne)%nat) by (destruct ne; cbn; lia).
    assert (D2 : (1 <= depth nw)%nat) by (destruct nw; cbn; lia).
    assert (D3 : (1 <= depth se)%nat) by (destruct se; cbn; lia).
    assert (D4 : (1 <= depth sw)%nat) by (destruct sw; cbn; lia).
    set (m := Nat.max (Nat.max (depth ne) (depth nw))
                      (Nat.max (depth se) (depth sw))).
    replace (S m - 1)%nat with (S (m - 1)) by lia.
    rewrite Nat.mul_succ_r.
    assert (Hm : (length ps * (m - 1)
                  <= length (all_points ne) + length (all_points nw)
                     + length (all_points se) + length (all_points sw))%nat).
    { unfold m.
      destruct (Nat.max_spec (depth ne) (depth nw)) as [[_ ->] | [_ ->]];
        destruct (Nat.max_spec (depth se) (depth sw)) as [[_ ->] | [_ ->]];
        match goal with
        | |- context [Nat.max ?a ?b] =>
          destruct (Nat.max_spec a b) as [[_ ->] | [_ ->]]
        end; lia. }
    lia.
Qed.

(** X3. The recursion of [insert] stays shallow however the particles
    cluster: in every reachable tree, [capacity] times the number of levels
    below the root is at most the number of particles held, so with positive
    capacity the depth is at most 1 + particles / capacity. *)
Theorem depth_bounded_by_population
    (b : Boundary.t) (c : nat) (q : QuadTree.t) :
  reachable b c q ->
  (c * (depth q - 1) <= length (all_points q))%nat
  /\ ((0 < c)%nat -> (depth q <= 1 + length (all_points q) / c)%nat).
Proof.
  intros Hr. pose proof (shaped_depth c q (reachable_shaped _ _ _ Hr)) as H.
  split; [ exact H | ]. intros Hc.
  assert (depth q - 1 <= length (all_points q) / c)%nat; [ | lia ].
  apply Nat.div_le_lower_bound; lia.
Qed.

Lemma depth_bounded_by_population_witness :
  exists q,
    build 2 env_idle (replicate 5 (particle_at 10 10)) = Some q
    /\ (4 * (depth q - 1) <= length (all_points q))%nat.
Proof.
  eexists. split; [ apply build_five_at_one_place | ].
  apply (depth_bounded_by_population (root_boundary env_idle) 4).
  apply (build_reachable 2 env_idle (replicate 5 (particle_at 10 10))).
  apply build_five_at_one_place.
Defined.

(** ** query *)

Lemma in_range_nonpositive deref range p :
  Circle.r range <= 0 -> in_range deref range p = false.
Proof.
  intros Hr. unfold in_range. apply Rltb_false.
  pose proof (sqrt_pos ((Vec.x (Particle.pos (deref p)) - Circle.x range)
                        * (Vec.x (Particle.pos (deref p)) - Circle.x range)
                        + (Vec.y (Particle.pos (deref p)) - Circle.y range)
                          * (Vec.y (Particle.pos (deref p)) - Circle.y range))).
  unfold P5.dist. lra.
Qed.

Lemma filter_all_false {A} (f : A -> bool) (l : list A) :
  (forall a, f a = false) -> List.filter f l = [].
Proof.
  intros H. induction l as [ | a l IH]; cbn; [ | rewrite H ]; auto.
Qed.

Lemma query_nonpositive deref range q :
  Circle.r range <= 0 -> QuadTree.query deref q range [] = [].
Proof.
  intros Hr.
  induction q as [b c ps | b c ps ne IHne nw IHnw se IHse sw IHsw];
    rewrite query_unfold; cbn [QuadTree.boundary QuadTree.points];
    destruct (Boundary.intersects b range); try reflexivity;
    rewrite (filter_all_false _ _ (fun p => in_range_nonpositive deref range p Hr)).
  - reflexivity.
  - rewrite IHne, IHnw, IHse, IHsw. reflexivity.
Qed.

(** X5. [query] only extends the accumulator it is given: the result is the
    accumulator followed by what the same query finds from an empty one, so
    repeated queries into one array concatenate; every reference it adds is
    held by the tree and is strictly closer to the centre than the radius;
    with a radius that is zero or negative it adds nothing. *)
Theorem query_extends_accumulator
    (deref : nat -> Particle.t) (q : QuadTree.t) (range : Circle.t)
    (found : list nat) :
  QuadTree.query deref q range found
  = found ++ QuadTree.query deref q range []
  /\ (forall p, In p (QuadTree.query deref q range []) ->
                In p (all_points q)
                /\ P5.dist (Circle.x range) (Circle.y range)
                           (Vec.x (Particle.pos (deref p)))
                           (Vec.y (Particle.pos (deref p)))
                   < Circle.r range)
  /\ (Circle.r range <= 0 -> QuadTree.query deref q range found = found).
Proof.
  split; [ apply query_acc | ]. split.
  - intros p Hp. split.
    + apply list_elem_of_In.
      eapply sublist_subseteq; [ apply query_sublist | ].
      apply list_elem_of_In. exact Hp.
    + apply Rltb_lt. apply (query_in_range deref range q p Hp).
  - intros Hr. rewrite query_acc, query_nonpositive by assumption.
    apply app_nil_r.
Qed.

(** X4. Insert and query round trip.  After the index of a frame is built
    from particles that all lie inside the half-open canvas, a query returns,
    without repetition, exactly the particles whose position is strictly
    closer to the centre of the range than its radius. *)
Theorem build_then_query_finds_exactly_the_near
    (fuel : nat) (env : Env) (ps : list Particle.t) (range : Circle.t) :
  inside_half_open env ps ->
  (length ps < fuel)%nat ->
  exists qt,
    build fuel env ps = Some qt
    /\ NoDup (QuadTree.query (deref ps) qt range [])
    /\ forall j,
         In j (QuadTree.query (deref ps) qt range [])
         <-> (j < length ps)%nat
             /\ P5.dist (Circle.x range) (Circle.y range)
                        (Vec.x (Particle.pos (deref ps j)))
                        (Vec.y (Particle.pos (deref ps j)))
                < Circle.r range.
Proof.
  intros Hin Hf.
  destruct (build_spec fuel env ps Hf) as (qt & E & Hnd & Hlt & Hst).
  exists qt. split; [ exact E | ]. split.
  - eapply sublist_NoDup; [ exact Hnd | apply query_sublist ].
  - intros j. split.
    + intros Hj. split.
      * apply Hlt. apply list_elem_of_In.
        eapply sublist_subseteq; [ apply query_sublist | ].
        apply list_elem_of_In. exact Hj.
      * apply Rltb_lt. apply (query_in_range (deref ps) range qt j Hj).
    + intros [Hj Hd]. apply query_complete.
      * apply Hst; [ exact Hj | reflexivity | ].
        apply root_contains_inside; assumption.
      * apply Rltb_lt. exact Hd.
Qed.

Lemma build_then_query_finds_exactly_the_near_witness :
  exists qt, build 6 env_idle (replicate 5 (particle_at 10 10)) = Some qt
             /\ NoDup (QuadTree.query (deref (replicate 5 (particle_at 10 10)))
                                      qt (Circle.mk 10 10 1) []).
Proof.
  destruct (build_then_query_finds_exactly_the_near 6 env_idle
              (replicate 5 (particle_at 10 10)) (Circle.mk 10 10 1))
    as (qt & E & Hnd & _).
  - intros p Hp. apply list_elem_of_In, elem_of_replicate in Hp.
    destruct Hp as [-> _]. cbn. lra.
  - cbn. lia.
  - exists qt. split; assumption.
Defined.

(** ** The Particle constructor *)

(** X6. With a canvas of positive size and draws in [[0, 1)], a new particle
    lies inside the half-open canvas, each velocity component lies in
    [[-2, 2)], the acceleration is zero, the hue lies in [[0, 360)], the base
    size in [[2.5, 7.5)] with the current size equal to it, the pulse speed
    in [[0.02, 0.06)] and the pulse offset in [[0, 2 PI)]. *)
Theorem new_particle_ranges (env : Env) (u : nat -> R) :
  0 < width env -> 0 < height env ->
  (forall k, 0 <= u k < 1) ->
  let p := Particle.new env u in
  (0 <= Vec.x (Particle.pos p) < width env
   /\ 0 <= Vec.y (Particle.pos p) < height env)
  /\ (- maxSpeed <= Vec.x (Particle.vel p) < maxSpeed
      /\ - maxSpeed <= Vec.y (Particle.vel p) < maxSpeed)
  /\ Particle.acc p = Vec.mk 0 0
  /\ 0 <= Particle.hue p < 360
  /\ 2.5 <= Particle.baseSize p < 7.5
  /\ Particle.size p = Particle.baseSize p
  /\ 0.02 <= Particle.pulseSpeed p < 0.06
  /\ 0 <= Particle.pulseOffset p < 2 * PI.
Proof.
  intros Hw Hh Hu p. subst p.
  pose proof (Hu 0%nat). pose proof (Hu 1%nat). pose proof (Hu 2%nat).
  pose proof (Hu 3%nat). pose proof (Hu 4%nat). pose proof (Hu 5%nat).
  pose proof (Hu 6%nat). pose proof (Hu 7%nat). pose proof PI_RGT_0.
  unfold Particle.new, P5.random1, P5.random2, P5.TWO_PI, maxSpeed,
    particleSize.
  cbn [Particle.pos Particle.vel Particle.acc Particle.hue Particle.baseSize
       Particle.size Particle.pulseSpeed Particle.pulseOffset Vec.x Vec.y].
  repeat split; try reflexivity; nra.
Qed.

Lemma new_particle_ranges_witness :
  0 <= Particle.hue (Particle.new env_idle (fun _ => 0)) < 360.
Proof.
  apply (new_particle_ranges env_idle (fun _ => 0)); cbn; intros; lra.
Defined.

(** ** The forces of update *)

Lemma random2D_unit angle : Vec.magSq (Vec.random2D angle) = 1.
Proof.
  unfold Vec.magSq, Vec.random2D, Vec.fromAngle. cbn.
  pose proof (sin2_cos2 angle) as H. unfold Rsqr in H. lra.
Qed.

Lemma magSq_mult v n : Vec.magSq (Vec.mult v n) = Vec.magSq v * (n * n).
Proof. unfold Vec.magSq, Vec.mult. cbn. ring. Qed.

Lemma mag_mult_unit v n : Vec.magSq v = 1 -> 0 <= n -> Vec.mag (Vec.mult v n) = n.
Proof.
  intros Hv Hn. unfold Vec.mag. rewrite magSq_mult, Hv, Rmult_1_l.
  apply sqrt_square. exact Hn.
Qed.

(** X11. With the mouse released, the acceleration that [update] leaves is
    the perturbation alone, 0.01 times the unit vector of the angle drawn: it
    has magnitude 0.01 whatever acceleration the particle carried before. *)
Theorem released_acceleration_is_perturbation
    (env : Env) (rep : bool) (angle : R) (p : Particle.t) :
  mouseIsPressed env = false ->
  Particle.acc (Particle.update env rep angle p)
  = Vec.mk (0 + cos angle * 0.01) (0 + sin angle * 0.01)
  /\ Vec.mag (Particle.acc (Particle.update env rep angle p)) = 0.01.
Proof.
  intros Hm.
  assert (E : Particle.acc (Particle.update env rep angle p)
              = Vec.mk (0 + cos angle * 0.01) (0 + sin angle * 0.01)).
  { unfold Particle.update, Particle.pointer_acc. cbn. rewrite Hm. reflexivity. }
  split; [ exact E | ]. rewrite E.
  replace (Vec.mk (0 + cos angle * 0.01) (0 + sin angle * 0.01))
    with (Vec.mult (Vec.random2D angle) 0.01).
  - apply mag_mult_unit; [ apply random2D_unit | lra ].
  - unfold Vec.mult, Vec.random2D, Vec.fromAngle. cbn. f_equal; lra.
Qed.

Lemma released_acceleration_is_perturbation_witness :
  Vec.mag (Particle.acc (Particle.update env_idle false 0 (particle_at 10 10)))
  = 0.01.
Proof.
  apply (released_acceleration_is_perturbation env_idle false 0
           (particle_at 10 10)).
  reflexivity.
Defined.

Lemma normalize_unit v : Vec.mag v <> 0 -> Vec.magSq (Vec.normalize v) = 1.
Proof.
  intros Hv. unfold Vec.normalize. rewrite Reqb_false by assumption.
  rewrite magSq_mult. unfold Vec.mag in *.
  pose proof (magSq_nonneg v) as Hn.
  pose proof (sqrt_sqrt _ Hn) as Hs.
  set (s := sqrt (Vec.magSq v)) in *.
  rewrite <- Hs. field. exact Hv.
Qed.

Lemma constrain_strength d :
  5 < d ->
  0 < P5.constrain (1 / (d * 0.03)) 0 0.8 <= 0.8.
Proof.
  intros Hd. unfold P5.constrain.
  assert (Hpos : 0 < 1 / (d * 0.03)).
  { apply Rdiv_lt_0_compat; lra. }
  unfold Rmax, Rmin.
  destruct (Rle_dec (1 / (d * 0.03)) 0.8);
    destruct (Rle_dec _ 0); lra.
Qed.

(** X10. With the mouse pressed and farther than 5 from the particle, the
    pointer force is the unit vector towards the mouse scaled by a strength
    in [(0, 0.8]]: its magnitude is that strength, it points towards the
    mouse in attraction mode, and the force of repulsion mode is its
    opposite. *)
Theorem pointer_force_bounded (env : Env) (p : Particle.t) :
  mouseIsPressed env = true ->
  let dir := Vec.sub (Vec.mk (mouseX env) (mouseY env)) (Particle.pos p) in
  5 < Vec.mag dir ->
  let strength := P5.constrain (1 / (Vec.mag dir * 0.03)) 0 0.8 in
  0 < strength <= 0.8
  /\ Vec.mag (Particle.pointer_acc env false p) = strength
  /\ Vec.mag (Particle.pointer_acc env true p) = strength
  /\ dot (Particle.pointer_acc env false p) dir = strength * Vec.mag dir
  /\ Particle.pointer_acc env true p
     = Vec.mult (Particle.pointer_acc env false p) (-1).
Proof.
  intros Hm dir Hd strength.
  pose proof (constrain_strength _ Hd) as Hs. fold strength in Hs.
  assert (Hu : Vec.magSq (Vec.normalize dir) = 1)
    by (apply normalize_unit; lra).
  assert (Ea : Particle.pointer_acc env false p
               = Vec.mult (Vec.normalize dir) strength).
  { unfold Particle.pointer_acc. rewrite Hm. fold dir.
    unfold Rgtb. rewrite Rltb_true by exact Hd. reflexivity. }
  assert (Er : Particle.pointer_acc env true p
               = Vec.mult (Vec.mult (Vec.normalize dir) (-1)) strength).
  { unfold Particle.pointer_acc. rewrite Hm. fold dir.
    unfold Rgtb. rewrite Rltb_true by exact Hd. reflexivity. }
  split; [ exact Hs | ]. rewrite Ea, Er.
  split; [ apply mag_mult_unit; [ exact Hu | lra ] | ].
  split.
  { apply mag_mult_unit; [ | lra ]. rewrite magSq_mult, Hu. lra. }
  split.
  - unfold Vec.normalize. rewrite Reqb_false by lra.
    unfold dot, Vec.mult. cbn [Vec.x Vec.y].
    pose proof (magSq_nonneg dir) as Hn.
    pose proof (sqrt_sqrt _ Hn) as Hq. fold (Vec.mag dir) in Hq.
    unfold Vec.magSq in Hq.
    set (m := Vec.mag dir) in *.
    replace (Vec.x dir * (1 / m) * strength * Vec.x dir
             + Vec.y dir * (1 / m) * strength * Vec.y dir)
      with (strength * ((Vec.x dir * Vec.x dir + Vec.y dir * Vec.y dir) / m))
      by (field; lra).
    rewrite <- Hq. field. lra.
  - unfold Vec.mult. cbn [Vec.x Vec.y]. f_equal; ring.
Qed.

Lemma pointer_force_bounded_witness :
  Vec.mag (Particle.pointer_acc (mkEnv 800 600 true 110 100 1) false
                                (particle_at 100 100))
  = P5.constrain
      (1 / (Vec.mag (Vec.sub (Vec.mk 110 100) (Vec.mk 100 100)) * 0.03)) 0 0.8.
Proof.
  apply (pointer_force_bounded (mkEnv 800 600 true 110 100 1)
                               (particle_at 100 100)).
  - reflexivity.
  - unfold Vec.mag, Vec.magSq. cbn.
    replace ((110 - 100) * (110 - 100) + (100 - 100) * (100 - 100))
      with (10 * 10) by lra.
    rewrite sqrt_square; lra.
Defined.

(** ** Cosmetic state of update *)

Lemma Rtrunc_unit_interval a k :
  0 <= IZR k -> IZR k <= a < IZR k + 1 -> Rtrunc a = k.
Proof.
  intros Hk Ha. unfold Rtrunc.
  destruct (Rle_dec 0 a) as [H0 | H0]; [ | lra ].
  symmetry. apply Int_part_spec. lra.
Qed.

(** [a % b] is [a] below [b] and [a - b] from [b] up to [2 b]. *)
Lemma js_rem_below a b : 0 <= a < b -> js_rem a b = a.
Proof.
  intros H. unfold js_rem.
  rewrite (Rtrunc_unit_interval (a / b) 0).
  - lra.
  - lra.
  - assert (Hb : 0 < b) by lra. split.
    + apply Rmult_le_reg_r with b; [ exact Hb | ].
      unfold Rdiv. rewrite Rmult_assoc, Rinv_l by lra. lra.
    + apply Rmult_lt_reg_r with b; [ exact Hb | ].
      unfold Rdiv. rewrite Rmult_assoc, Rinv_l by lra. lra.
Qed.

Lemma js_rem_once a b : 0 < b -> b <= a < 2 * b -> js_rem a b = a - b.
Proof.
  intros Hb H. unfold js_rem.
  rewrite (Rtrunc_unit_interval (a / b) 1).
  - lra.
  - lra.
  - split.
    + apply Rmult_le_reg_r with b; [ exact Hb | ].
      unfold Rdiv. rewrite Rmult_assoc, Rinv_l by lra. lra.
    + apply Rmult_lt_reg_r with b; [ exact Hb | ].
      unfold Rdiv. rewrite Rmult_assoc, Rinv_l by lra. lra.
Qed.

(** X12. [update] never changes the base size, the pulse speed or the pulse
    offset of a particle; for a non-negative base size the current size stays
    within 30 percent of it; and a hue in [[0, 360)] advances by exactly 0.1,
    coming back by 360 once it reaches 360. *)
Theorem update_cosmetic_state
    (env : Env) (rep : bool) (angle : R) (p : Particle.t) :
  0 <= Particle.baseSize p ->
  0 <= Particle.hue p < 360 ->
  let p' := Particle.update env rep angle p in
  Particle.baseSize p' = Particle.baseSize p
  /\ Particle.pulseSpeed p' = Particle.pulseSpeed p
  /\ Particle.pulseOffset p' = Particle.pulseOffset p
  /\ 0.7 * Particle.baseSize p <= Particle.size p' <= 1.3 * Particle.baseSize p
  /\ (Particle.hue p + 0.1 < 360 -> Particle.hue p' = Particle.hue p + 0.1)
  /\ (360 <= Particle.hue p + 0.1 ->
      Particle.hue p' = Particle.hue p + 0.1 - 360).
Proof.
  intros Hb Hh p'. subst p'. unfold Particle.update.
  cbn [Particle.baseSize Particle.pulseSpeed Particle.pulseOffset
       Particle.size Particle.hue].
  split; [ reflexivity | ]. split; [ reflexivity | ].
  split; [ reflexivity | ]. split; [ | split ].
  - pose proof (SIN_bound (frameCount env * Particle.pulseSpeed p
                           + Particle.pulseOffset p)) as Hs.
    set (s := sin _) in *. nra.
  - intros H. apply js_rem_below. lra.
  - intros H. apply js_rem_once; lra.
Qed.

Lemma update_cosmetic_state_witness :
  Particle.baseSize (Particle.update env_idle false 0 (particle_at 10 10))
  = Particle.baseSize (particle_at 10 10).
Proof.
  apply (update_cosmetic_state env_idle false 0 (particle_at 10 10));
    cbn; lra.
Defined.

(** ** keyPressed, the other keys *)

Lemma iter_pop_app (ps l : list Particle.t) :
  Nat.iter (length l) pop (ps ++ l) = ps.
Proof.
  induction l as [ | a l IH] using rev_ind.
  - cbn. apply app_nil_r.
  - rewrite length_app. cbn [length]. rewrite Nat.add_1_r.
    rewrite Nat.iter_succ_r. unfold pop at 2.
    rewrite app_assoc, removelast_last. exact IH.
Qed.

(** X8. Adding and then removing is a round trip on a population that is not
    empty: the ten particles pushed by the key [a] are the ten popped by the
    key [d], and the array is as before.  From the empty population the key
    [d] does nothing after [a], and ten particles stay. *)
Theorem add_then_remove_restores
    (env : Env) (rnd1 rnd2 : nat -> nat -> R) (st : State) :
  let st' := keyPressed env rnd2 "d" (keyPressed env rnd1 "a" st) in
  ((0 < length (particles st))%nat -> particles st' = particles st)
  /\ (particles st = [] -> length (particles st') = 10%nat).
Proof.
  intros st'. subst st'.
  rewrite key_remove_particles by (left; reflexivity).
  rewrite key_add_particles by (left; reflexivity).
  rewrite length_push_new. split.
  - intros Hpos. rewrite (proj2 (Nat.ltb_lt _ _)) by lia.
    exact (iter_pop_app (particles st)
             (List.map (fun k => Particle.new env (rnd1 k)) (seq 0 10))).
  - intros ->. cbn [length Nat.add]. rewrite Nat.ltb_irrefl.
    apply length_push_new.
Qed.

Lemma not_bound_eqb key :
  ~ In key bound_keys ->
  key_is key "r" "R" = false /\ key_is key "a" "A" = false
  /\ key_is key "d" "D" = false /\ key_is key "q" "Q" = false
  /\ String.eqb key " " = false.
Proof.
  intros H. unfold key_is.
  assert (E : forall k, In k bound_keys -> String.eqb key k = false).
  { intros k Hk. apply String.eqb_neq. intros ->. exact (H Hk). }
  rewrite !E by (cbn; tauto). repeat split; reflexivity.
Qed.

(** X9. A key that [keyPressed] does not bind changes nothing: particles,
    colour shift, modes and quadtree are all as before. *)
Theorem unbound_key_changes_nothing
    (env : Env) (rnd : nat -> nat -> R) (key : string) (st : State) :
  ~ In key bound_keys -> keyPressed env rnd key st = st.
Proof.
  intros H.
  destruct (not_bound_eqb key H) as (E1 & E2 & E3 & E4 & E5).
  unfold keyPressed. rewrite E1, E2, E3, E4, E5. cbn [andb].
  destruct st; reflexivity.
Qed.

Lemma unbound_key_changes_nothing_witness :
  keyPressed env_idle (fun _ _ => 0) "x" (state_of [particle_at 10 10] true)
  = state_of [particle_at 10 10] true.
Proof.
  apply (unbound_key_changes_nothing env_idle (fun _ _ => 0) "x"%string).
  cbn. intros H.
  repeat (destruct H as [H | H]; [ discriminate H | ]). exact H.
Defined.

(** ** Frames *)

Lemma deref_advance_below_self env rep angles i (ps : list Particle.t) :
  (i < length ps)%nat ->
  deref (advance_below env rep angles (S i) ps) i
  = Particle.update env rep (angles i) (deref ps i).
Proof.
  intros Hi. rewrite !deref_lookup. unfold advance_below.
  rewrite list_lookup_imap.
  destruct (lookup_lt_is_Some_2 ps i Hi) as [p Hp]. rewrite Hp.
  cbn -[Nat.ltb]. rewrite (proj2 (Nat.ltb_lt i (S i))) by lia. reflexivity.
Qed.

Lemma deref_advance_all env rep angles i (ps : list Particle.t) :
  (i < length ps)%nat ->
  deref (advance_all env rep angles ps) i
  = Particle.update env rep (angles i) (deref ps i).
Proof.
  intros Hi. rewrite !deref_lookup. unfold advance_all.
  rewrite list_lookup_imap.
  destruct (lookup_lt_is_Some_2 ps i Hi) as [p Hp]. rewrite Hp. reflexivity.
Qed.

(** The connections of a frame, with the index or without it: each joins an
    earlier particle, advanced, to a later one, not yet advanced, closer
    than the connection distance. *)
Lemma draw_members fuel env angles st :
  (length (particles st) < fuel)%nat ->
  exists qt out,
    draw fuel env angles st
    = Some (mkState (advance_all env (repulsionMode st) angles (particles st))
                    (js_rem (colorShift st + 0.2) 360)
                    (repulsionMode st) (useQuadtree st) qt, out)
    /\ forall c, In c out ->
         exists i j,
           (i < j < length (particles st))%nat
           /\ close_enough
                (advance_below env (repulsionMode st) angles (S i) (particles st))
                i j = true
           /\ c = connection (js_rem (colorShift st + 0.2) 360)
                    (advance_below env (repulsionMode st) angles (S i) (particles st))
                    i j.
Proof.
  intros Hf. rewrite draw_turns. destruct (useQuadtree st) eqn:HQ.
  - destruct (build_spec fuel env (particles st) Hf) as (qt & E & _ & Hlt & _).
    rewrite E. do 2 eexists. split; [ reflexivity | ].
    intros c Hc. apply in_flat_map in Hc. destruct Hc as (i & Hi & Hc).
    rewrite turn_with_index in Hc. apply in_map_iff in Hc.
    destruct Hc as (j & <- & Hj). apply filter_In in Hj.
    destruct Hj as [Hq Hj]. apply andb_true_iff in Hj. destruct Hj as [Hn Hclose].
    apply negb_true_iff, orb_false_iff in Hn. destruct Hn as [_ Hn].
    apply Nat.leb_gt in Hn.
    exists i, j. split; [ | split; [ exact Hclose | reflexivity ] ].
    split; [ exact Hn | ]. apply Hlt. apply list_elem_of_In.
    eapply sublist_subseteq; [ apply query_sublist | ].
    apply list_elem_of_In. exact Hq.
  - exists (quadtree st). eexists. split; [ reflexivity | ].
    intros c Hc. apply in_flat_map in Hc. destruct Hc as (i & Hi & Hc).
    rewrite turn_brute_force in Hc. apply in_map_iff in Hc.
    destruct Hc as (j & <- & Hj). apply filter_In in Hj.
    destruct Hj as [Hs Hclose]. apply in_seq in Hs.
    exists i, j. split; [ lia | split; [ exact Hclose | reflexivity ] ].
Qed.

Lemma close_enough_advanced env rep angles i j (ps : list Particle.t) :
  (i < j < length ps)%nat ->
  close_enough (advance_below env rep angles (S i) ps) i j
  = Rltb (particle_dist (Particle.update env rep (angles i) (deref ps i))
                        (deref ps j))
         connectionDistance.
Proof.
  intros H. unfold close_enough.
  rewrite deref_advance_below_self by lia.
  rewrite deref_advance_below by lia. reflexivity.
Qed.

(** X16. A frame without the index returns for every state and connects
    exactly the pairs [(i, j)] with [i < j] for which the advanced particle
    [i] is closer than 120 to particle [j] as it stands before its own update
    of the frame. *)
Theorem brute_force_pairs
    (fuel : nat) (env : Env) (angles : nat -> R) (st : State) :
  useQuadtree st = false ->
  exists st' out,
    draw fuel env angles st = Some (st', out)
    /\ forall i j,
         In (i, j) (pairs out)
         <-> (i < j < length (particles st))%nat
             /\ particle_dist
                  (Particle.update env (repulsionMode st) (angles i)
                                   (deref (particles st) i))
                  (deref (particles st) j)
                < connectionDistance.
Proof.
  intros HQ. rewrite draw_turns, HQ. do 2 eexists.
  split; [ reflexivity | ]. intros i j.
  rewrite pairs_flat_map, in_flat_map. split.
  - intros (k & Hk & H). rewrite turn_brute_force, pairs_connections in H.
    apply in_map_iff in H. destruct H as (j' & Heq & Hj).
    inversion Heq; subst k j'. clear Heq.
    apply filter_In in Hj. destruct Hj as [Hs Hc]. apply in_seq in Hs.
    assert (Hij : (i < j < length (particles st))%nat) by lia.
    split; [ exact Hij | ].
    rewrite close_enough_advanced in Hc by exact Hij.
    apply Rltb_lt. exact Hc.
  - intros [Hij Hd]. exists i. split; [ apply in_seq; lia | ].
    rewrite turn_brute_force, pairs_connections.
    apply in_map. apply filter_In. split; [ apply in_seq; lia | ].
    rewrite close_enough_advanced by exact Hij.
    apply Rltb_lt. exact Hd.
Qed.

Lemma brute_force_pairs_witness :
  exists st' out,
    draw 0 env_idle zero_angles (state_of edge_pair false) = Some (st', out).
Proof.
  destruct (brute_force_pairs 0 env_idle zero_angles
              (state_of edge_pair false) eq_refl) as (st' & out & E & _).
  exists st', out. exact E.
Defined.

(** X15. When every particle lies inside the half-open canvas
    [[0, width) x [0, height)] as the frame begins, the frame that uses the
    index and the frame that scans all pairs advance the particles alike and
    draw the same connections, line for line. *)
Theorem index_agrees_with_brute_force
    (fuel : nat) (env : Env) (angles : nat -> R) (st : State) :
  inside_half_open env (particles st) ->
  (length (particles st) < fuel)%nat ->
  exists stq outq stb outb,
    draw fuel env angles (with_index true st) = Some (stq, outq)
    /\ draw fuel env angles (with_index false st) = Some (stb, outb)
    /\ particles stq = particles stb
    /\ forall c, In c outq <-> In c outb.
Proof. apply index_agrees_inside_half_open. Qed.

Lemma index_agrees_with_brute_force_witness :
  exists stq outq stb outb,
    draw 3 env_idle zero_angles
         (with_index true (state_of [particle_at 10 10; particle_at 20 10] true))
    = Some (stq, outq)
    /\ draw 3 env_idle zero_angles
            (with_index false (state_of [particle_at 10 10; particle_at 20 10] true))
       = Some (stb, outb)
    /\ particles stq = particles stb
    /\ forall c, In c outq <-> In c outb.
Proof.
  apply (index_agrees_with_brute_force 3 env_idle zero_angles
           (state_of [particle_at 10 10; particle_at 20 10] true)).
  - intros p [<- | [<- | []]]; cbn; lra.
  - cbn. lia.
Defined.

Lemma map_range d lo :
  0 <= d < connectionDistance -> lo < 2 ->
  lo < P5.map d 0 connectionDistance 2 lo <= 2.
Proof.
  unfold P5.map, connectionDistance. intros [H0 H1] Hlo.
  assert (0 <= d / 120 < 1) as [Ha Hb].
  { split.
    - apply Rmult_le_reg_r with 120; [ lra | ].
      unfold Rdiv. rewrite Rmult_assoc, Rinv_l by lra. lra.
    - apply Rmult_lt_reg_r with 120; [ lra | ].
      unfold Rdiv. rewrite Rmult_assoc, Rinv_l by lra. lra. }
  replace ((d - 0) / (120 - 0)) with (d / 120) by (unfold Rdiv; f_equal; lra).
  set (t := d / 120) in *. nra.
Qed.

Lemma alpha_range d :
  0 <= d < connectionDistance ->
  0 < P5.map d 0 connectionDistance 1 0 <= 1.
Proof.
  unfold P5.map, connectionDistance. intros [H0 H1].
  assert (0 <= d / 120 < 1) as [Ha Hb].
  { split.
    - apply Rmult_le_reg_r with 120; [ lra | ].
      unfold Rdiv. rewrite Rmult_assoc, Rinv_l by lra. lra.
    - apply Rmult_lt_reg_r with 120; [ lra | ].
      unfold Rdiv. rewrite Rmult_assoc, Rinv_l by lra. lra. }
  replace ((d - 0) / (120 - 0)) with (d / 120) by (unfold Rdiv; f_equal; lra).
  set (t := d / 120) in *. nra.
Qed.

(** X14. With fuel above the number of particles a frame returns, with the
    index or without it, and every line it draws joins a particle [src] to a
    later particle [dst]; it starts at the position [src] has after the
    frame and ends at the position [dst] had when the frame began; its alpha
    lies in [(0, 1]] and its stroke weight in [(0.1, 2]]. *)
Theorem emitted_lines_in_range
    (fuel : nat) (env : Env) (angles : nat -> R) (st : State) :
  (length (particles st) < fuel)%nat ->
  exists st' out,
    draw fuel env angles st = Some (st', out)
    /\ forall c, In c out ->
         (src c < dst c < length (particles st))%nat
         /\ lineFrom (line c) = Particle.pos (deref (particles st') (src c))
         /\ lineTo (line c) = Particle.pos (deref (particles st) (dst c))
         /\ 0 < strokeAlpha (line c) <= 1
         /\ 0.1 < strokeWeight (line c) <= 2.
Proof.
  intros Hf. destruct (draw_members fuel env angles st Hf) as (qt & out & E & H).
  do 2 eexists. split; [ exact E | ].
  intros c Hc. destruct (H c Hc) as (i & j & Hij & Hclose & ->).
  cbn [src dst line connection particles].
  rewrite close_enough_advanced in Hclose by exact Hij.
  apply Rltb_lt in Hclose.
  unfold drawConnection.
  cbn [lineFrom lineTo strokeAlpha strokeWeight].
  rewrite deref_advance_below_self, deref_advance_below by lia.
  rewrite deref_advance_all by lia.
  assert (Hd : 0 <= particle_dist
                      (Particle.update env (repulsionMode st) (angles i)
                                       (deref (particles st) i))
                      (deref (particles st) j) < connectionDistance).
  { split; [ apply sqrt_pos | exact Hclose ]. }
  split; [ exact Hij | ]. split; [ reflexivity | ]. split; [ reflexivity | ].
  split; [ apply alpha_range; exact Hd | apply map_range; [ exact Hd | lra ] ].
Qed.

Lemma emitted_lines_in_range_witness :
  exists st' out,
    draw 3 env_idle zero_angles (state_of edge_pair true) = Some (st', out).
Proof.
  destruct (emitted_lines_in_range 3 env_idle zero_angles
              (state_of edge_pair true) ltac:(cbn; lia))
    as (st' & out & E & _).
  exists st', out. exact E.
Defined.

(** X13. With fuel above the number of particles a frame returns, with the
    index or without it; it keeps the number of particles and both mode
    flags, advances every particle exactly once by its own [update], the same
    way whether the index is used or not, and moves a colour shift in
    [[0, 360)] on by 0.2, back by 360 when it reaches 360. *)
Theorem frame_advances_every_particle_once
    (fuel : nat) (env : Env) (angles : nat -> R) (st : State) :
  (length (particles st) < fuel)%nat ->
  0 <= colorShift st < 360 ->
  exists st' out,
    draw fuel env angles st = Some (st', out)
    /\ length (particles st') = length (particles st)
    /\ (forall i, (i < length (particles st))%nat ->
          deref (particles st') i
          = Particle.update env (repulsionMode st) (angles i)
                            (deref (particles st) i))
    /\ repulsionMode st' = repulsionMode st
    /\ useQuadtree st' = useQuadtree st
    /\ 0 <= colorShift st' < 360
    /\ (colorShift st' = colorShift st + 0.2
        \/ colorShift st' = colorShift st + 0.2 - 360)
    /\ forall useQ, exists st2 out2,
         draw fuel env angles (with_index useQ st) = Some (st2, out2)
         /\ particles st2 = particles st'.
Proof.
  intros Hf Hcs.
  destruct (draw_members fuel env angles st Hf) as (qt & out & E & _).
  do 2 eexists. split; [ exact E | ]. cbn [particles repulsionMode useQuadtree
                                           colorShift].
  split; [ apply length_imap | ].
  split; [ intros i Hi; apply deref_advance_all; exact Hi | ].
  split; [ reflexivity | ]. split; [ reflexivity | ].
  split; [ apply js_rem_range; lra | ].
  split.
  - destruct (Rlt_dec (colorShift st + 0.2) 360) as [Hlt | Hge].
    + left. apply js_rem_below. lra.
    + right. apply js_rem_once; lra.
  - intros useQ.
    destruct (draw_members fuel env angles (with_index useQ st) Hf)
      as (qt2 & out2 & E2 & _).
    do 2 eexists. split; [ exact E2 | ]. reflexivity.
Qed.

Lemma frame_advances_every_particle_once_witness :
  exists st' out,
    draw 3 env_idle zero_angles (state_of edge_pair true) = Some (st', out)
    /\ length (particles st') = length (particles (state_of edge_pair true)).
Proof.
  destruct (frame_advances_every_particle_once 3 env_idle zero_angles
              (state_of edge_pair true) ltac:(cbn; lia) ltac:(cbn; lra))
    as (st' & out & E & L & _).
  exists st', out. split; assumption.
Defined.

(** ** setup and the reset key *)

Lemma new_position_inside env u :
  0 < width env -> 0 < height env -> (forall k, 0 <= u k < 1) ->
  0 <= Vec.x (Particle.pos (Particle.new env u)) < width env
  /\ 0 <= Vec.y (Particle.pos (Particle.new env u)) < height env.
Proof.
  intros Hw Hh Hu. pose proof (Hu 0%nat). pose proof (Hu 1%nat).
  unfold Particle.new, P5.random1. cbn [Particle.pos Vec.x Vec.y].
  split; nra.
Qed.

Lemma push_new_inside env rnd n :
  0 < width env -> 0 < height env -> (forall k m, 0 <= rnd k m < 1) ->
  inside_half_open env (push_new env rnd n []).
Proof.
  intros Hw Hh Hr p Hp. unfold push_new in Hp. cbn [app] in Hp.
  apply in_map_iff in Hp. destruct Hp as (k & <- & _).
  apply new_position_inside; auto.
Qed.

(** X7. After [setup] on a canvas of positive size, with draws in [[0, 1)],
    the population is 150 particles, all inside the half-open canvas, the
    index is switched on and its root is empty; so the first frame draws the
    same connections whether it uses the index or scans all pairs. *)
Theorem setup_then_first_frame
    (env : Env) (rnd : nat -> nat -> R) (fuel : nat) (angles : nat -> R) :
  0 < width env -> 0 < height env ->
  (forall k m, 0 <= rnd k m < 1) ->
  (numParticles < fuel)%nat ->
  let st := setup env rnd in
  length (particles st) = numParticles
  /\ inside_half_open env (particles st)
  /\ useQuadtree st = true
  /\ all_points (quadtree st) = []
  /\ exists stq outq stb outb,
       draw fuel env angles st = Some (stq, outq)
       /\ draw fuel env angles (with_index false st) = Some (stb, outb)
       /\ particles stq = particles stb
       /\ forall c, In c outq <-> In c outb.
Proof.
  intros Hw Hh Hr Hf st.
  assert (Hlen : length (particles st) = numParticles).
  { unfold st, setup. cbn [particles]. rewrite length_push_new. reflexivity. }
  assert (Hin : inside_half_open env (particles st)).
  { unfold st, setup. cbn [particles]. apply push_new_inside; assumption. }
  split; [ exact Hlen | ]. split; [ exact Hin | ].
  split; [ reflexivity | ]. split; [ reflexivity | ].
  apply (index_agrees_inside_half_open fuel env angles st Hin).
  rewrite Hlen. exact Hf.
Qed.

Lemma setup_then_first_frame_witness :
  length (particles (setup env_idle (fun _ _ => 0))) = numParticles.
Proof.
  apply (setup_then_first_frame env_idle (fun _ _ => 0) 151 zero_angles).
  - cbn. lra.
  - cbn. lra.
  - intros k m. lra.
  - unfold numParticles. lia.
Defined.

(** X17. The space key replaces a population that is not empty by the 150
    fresh particles of [setup], all inside the half-open canvas, and keeps
    the modes and the colour shift; on an empty population it does
    nothing. *)
Theorem reset_key_restores_default_population
    (env : Env) (rnd : nat -> nat -> R) (st : State) :
  0 < width env -> 0 < height env ->
  (forall k m, 0 <= rnd k m < 1) ->
  let st' := keyPressed env rnd " " st in
  (particles st = [] -> st' = st)
  /\ ((0 < length (particles st))%nat ->
      particles st' = particles (setup env rnd)
      /\ length (particles st') = numParticles
      /\ inside_half_open env (particles st'))
  /\ repulsionMode st' = repulsionMode st
  /\ useQuadtree st' = useQuadtree st
  /\ colorShift st' = colorShift st.
Proof.
  intros Hw Hh Hr st'. subst st'. unfold keyPressed.
  cbn [key_is String.eqb Ascii.eqb Bool.eqb orb andb
       particles repulsionMode useQuadtree colorShift].
  split; [ | split; [ | repeat split ] ].
  - intros E. rewrite E. cbn. destruct st; cbn in *. congruence.
  - intros Hpos. rewrite (proj2 (Nat.ltb_lt _ _)) by exact Hpos.
    cbn [setup particles]. split; [ reflexivity | ].
    split; [ apply length_push_new | apply push_new_inside; assumption ].
Qed.

Lemma reset_key_restores_default_population_witness :
  length (particles (keyPressed env_idle (fun _ _ => 0) " "
                                (state_of [particle_at 10 10] true)))
  = numParticles.
Proof.
  destruct (reset_key_restores_default_population env_idle (fun _ _ => 0)
              (state_of [particle_at 10 10] true))
    as (_ & H & _).
  - cbn. lra.
  - cbn. lra.
  - intros k m. lra.
  - destruct H as (_ & L & _); [ cbn; lia | exact L ].
Defined.
